(** * intrusive_ptr / intrusive_ref_counter: a shallow embedding of solution.h

    The header defines a handle type [intrusive_ptr<T>] holding one raw
    pointer [m_pointer], and a counter base [intrusive_ref_counter<T>]
    holding one [std::atomic<unsigned int>] together with the two hooks
    [intrusive_ptr_add_ref] and [intrusive_ptr_release].

    The embedding is sequential.  A [world] records
    - the live counter-base objects (address to counter value),
    - the live handle objects (handle name to [m_pointer]),
    - the chronological trace of hook calls and deletions.
    Every member function is a computation in a state-and-error monad over
    [world]; the error stands for undefined behaviour (a hook applied to a
    null or dangling pointer, a member function applied to a handle object
    that does not exist). *)

From stdpp Require Import gmap list fin_maps.
From Stdlib Require Import ZArith Lia.

Local Open Scope Z_scope.

(** ** Pointers, counters, events *)

(** A raw pointer [T*] is an address of type [N]; the null pointer is
    address 0. *)
Definition nullptr : N := 0%N.

(** [unsigned int]: arithmetic is modulo 2^32. *)
Definition UINT_MODULUS : Z := 4294967296.
Definition wrap32 (z : Z) : Z := z mod UINT_MODULUS.

Inductive event : Type :=
  | EvAddRef (p : N)     (* intrusive_ptr_add_ref(p) was called *)
  | EvRelease (p : N)    (* intrusive_ptr_release(p) was called *)
  | EvDelete (p : N).    (* delete static_cast<const Derived*>(p) *)

Global Instance event_eq_dec : EqDecision event.
Proof. solve_decision. Defined.

Record world : Type := World {
  heap : gmap N Z;        (* live pointees: address |-> counter *)
  handles : gmap nat N;   (* live intrusive_ptr objects: name |-> m_pointer *)
  trace : list event      (* oldest event first *)
}.

(** ** The state-and-error monad *)

Definition M (A : Type) : Type := world → option (A * world).

Definition ret {A} (a : A) : M A := λ w, Some (a, w).
Definition bind {A B} (m : M A) (k : A → M B) : M B :=
  λ w, match m w with
       | Some (a, w') => k a w'
       | None => None
       end.

(** Undefined behaviour. *)
Definition undefined {A} : M A := λ _, None.

(** stdpp's monad notations: [x ← m; k] and [m;; k]. *)
Global Instance M_ret : MRet M := @ret.
Global Instance M_bind : MBind M := λ A B k m, bind m k.

(** Conditional statement without an else branch. *)
Definition when (b : bool) (m : M unit) : M unit := if b then m else ret tt.

(** *** Accessing handle objects *)

(** Read [h.m_pointer]. *)
Definition load (h : nat) : M N :=
  λ w, match handles w !! h with
       | Some p => Some (p, w)
       | None => None
       end.

(** Write [h.m_pointer = p]. *)
Definition store (h : nat) (p : N) : M unit :=
  λ w, match handles w !! h with
       | Some _ => Some (tt, World (heap w) (<[h := p]> (handles w)) (trace w))
       | None => None
       end.

(** Begin the lifetime of handle object [h] with member initialiser [p]. *)
Definition alloc (h : nat) (p : N) : M unit :=
  λ w, match handles w !! h with
       | Some _ => None
       | None => Some (tt, World (heap w) (<[h := p]> (handles w)) (trace w))
       end.

(** End the lifetime of handle object [h]. *)
Definition free (h : nat) : M unit :=
  λ w, match handles w !! h with
       | Some _ => Some (tt, World (heap w) (delete h (handles w)) (trace w))
       | None => None
       end.

(** [h] designates a handle object within its lifetime. *)
Definition alive (h : nat) : M unit :=
  λ w, match handles w !! h with
       | Some _ => Some (tt, w)
       | None => None
       end.

(** A name for a temporary handle object. *)
Definition temporary : M nat := λ w, Some (fresh (dom (handles w)), w).

(** ** intrusive_ref_counter *)

Module intrusive_ref_counter.

(** The only data member: [mutable std::atomic<unsigned int> counter = 0]. *)
Record t : Type := Make { counter : Z }.

(** [intrusive_ref_counter() noexcept = default] *)
Definition ctor_default : t := Make 0.

(** [intrusive_ref_counter(const intrusive_ref_counter&) noexcept {}]:
    the argument is ignored, the default member initialiser applies. *)
Definition ctor_copy (other : t) : t := Make 0.

(** [operator=(const intrusive_ref_counter&)]: [return *this]. *)
Definition assign (this other : t) : t := this.

(** [use_count() const]: [return counter]. *)
Definition use_count (this : t) : Z := counter this.

(** [++p->counter] on the object itself. *)
Definition incr (this : t) : t := Make (wrap32 (counter this + 1)).

(** [--p->counter] on the object itself. *)
Definition decr (this : t) : t := Make (wrap32 (counter this - 1)).

End intrusive_ref_counter.

(** [p->use_count()] for a pointee in the heap. *)
Definition use_count (p : N) : M Z :=
  λ w, match heap w !! p with
       | Some c => Some (c, w)
       | None => None
       end.

(** [intrusive_ptr_add_ref(p)]: [++p->counter]. *)
Definition intrusive_ptr_add_ref (p : N) : M unit :=
  λ w, if decide (p = nullptr) then None else
       match heap w !! p with
       | Some c =>
           let c' := intrusive_ref_counter.counter
                       (intrusive_ref_counter.incr (intrusive_ref_counter.Make c)) in
           Some (tt, World (<[p := c']> (heap w)) (handles w)
                           (trace w ++ [EvAddRef p]))
       | None => None
       end.

(** [intrusive_ptr_release(p)]: [if (--p->counter == 0) delete ...]. *)
Definition intrusive_ptr_release (p : N) : M unit :=
  λ w, if decide (p = nullptr) then None else
       match heap w !! p with
       | Some c =>
           let c' := intrusive_ref_counter.counter
                       (intrusive_ref_counter.decr (intrusive_ref_counter.Make c)) in
           if c' =? 0
           then Some (tt, World (delete p (heap w)) (handles w)
                                (trace w ++ [EvRelease p; EvDelete p]))
           else Some (tt, World (<[p := c']> (heap w)) (handles w)
                                (trace w ++ [EvRelease p]))
       | None => None
       end.

(** ** intrusive_ptr *)

Definition is_null (p : N) : bool := bool_decide (p = nullptr).
Definition ptr_eqb (p q : N) : bool := bool_decide (p = q).

Module intrusive_ptr.

(** [T& operator*() const noexcept]: [return *m_pointer], the pointee
    designated by the stored pointer; undefined on an empty handle and on
    a handle whose pointee is gone. *)
Definition deref (this : nat) : M N :=
  p ← load this;
  if is_null p then undefined else (use_count p;; mret p).

(** [T* operator->() const noexcept] *)
Definition arrow (this : nat) : M N := load this.

(** [T* get() const noexcept] *)
Definition get (this : nat) : M N := load this.

(** [T* detach() noexcept] *)
Definition detach (this : nat) : M N :=
  result ← load this;
  store this nullptr;;
  ret result.

(** [explicit operator bool() const noexcept] *)
Definition to_bool (this : nat) : M bool :=
  p ← load this; ret (negb (is_null p)).

(** [void swap(intrusive_ptr& b) noexcept]: [std::swap] of the pointers. *)
Definition swap (this b : nat) : M unit :=
  x ← load this;
  y ← load b;
  store this y;;
  store b x.

(** [intrusive_ptr() noexcept = default] *)
Definition ctor_default (this : nat) : M unit := alloc this nullptr.

(** [intrusive_ptr(T* p, bool add_ref = true)] *)
Definition ctor_raw (this : nat) (p : N) (add_ref : bool) : M unit :=
  alloc this p;;
  m ← load this;
  when (negb (is_null m) && add_ref) (intrusive_ptr_add_ref m).

(** [intrusive_ptr(intrusive_ptr const& r)] *)
Definition ctor_copy (this r : nat) : M unit :=
  rp ← load r;
  alloc this rp;;
  m ← load this;
  when (negb (is_null m)) (intrusive_ptr_add_ref m).

(** [intrusive_ptr(intrusive_ptr<Y> const& r)] *)
Definition ctor_copy_conv (this r : nat) : M unit :=
  rp ← get r;
  alloc this rp;;
  m ← load this;
  when (negb (is_null m)) (intrusive_ptr_add_ref m).

(** [intrusive_ptr(intrusive_ptr&& r)] *)
Definition ctor_move (this r : nat) : M unit :=
  rp ← load r;
  alloc this rp;;
  store r nullptr.

(** [intrusive_ptr(intrusive_ptr<Y>&& r)] *)
Definition ctor_move_conv (this r : nat) : M unit :=
  rp ← get r;
  alloc this rp;;
  detach r;;
  ret tt.

(** [~intrusive_ptr()] *)
Definition dtor (this : nat) : M unit :=
  m ← load this;
  when (negb (is_null m)) (intrusive_ptr_release m);;
  free this.

(** [intrusive_ptr(args).swap( *this )], a statement of a member function
    of the live object [this]: the temporary is constructed, swapped with
    [this], and destroyed at the end of the statement. *)
Definition temp_swap (construct : nat → M unit) (this : nat) : M unit :=
  alive this;;
  tmp ← temporary;
  construct tmp;;
  swap tmp this;;
  dtor tmp.

(** [operator=(intrusive_ptr const& r)] *)
Definition assign_copy (this r : nat) : M unit :=
  rp ← load r;
  m ← load this;
  when (negb (ptr_eqb rp m)) (temp_swap (λ tmp, ctor_copy tmp r) this).

(** [operator=(intrusive_ptr<Y> const& r)] *)
Definition assign_copy_conv (this r : nat) : M unit :=
  temp_swap (λ tmp, ctor_copy_conv tmp r) this.

(** [operator=(T* r)] *)
Definition assign_raw (this : nat) (r : N) : M unit :=
  temp_swap (λ tmp, ctor_raw tmp r true) this.

(** [operator=(intrusive_ptr&& r)] *)
Definition assign_move (this r : nat) : M unit :=
  rp ← load r;
  m ← load this;
  when (negb (ptr_eqb rp m)) (temp_swap (λ tmp, ctor_move tmp r) this).

(** [operator=(intrusive_ptr<Y>&& r)] *)
Definition assign_move_conv (this r : nat) : M unit :=
  temp_swap (λ tmp, ctor_move_conv tmp r) this.

(** [void reset()] *)
Definition reset (this : nat) : M unit :=
  m ← load this;
  when (negb (is_null m))
    (intrusive_ptr_release m;;
     store this nullptr).

(** [void reset(T* r)] *)
Definition reset_raw (this : nat) (r : N) : M unit :=
  temp_swap (λ tmp, ctor_raw tmp r true) this.

(** [void reset(T* r, bool add_ref)] *)
Definition reset_raw_flag (this : nat) (r : N) (add_ref : bool) : M unit :=
  temp_swap (λ tmp, ctor_raw tmp r add_ref) this.

(** [operator==(intrusive_ptr<T> const& a, intrusive_ptr<U> const& b)] *)
Definition eq_hh (a b : nat) : M bool :=
  x ← get a; y ← get b; ret (ptr_eqb x y).

(** [operator!=(intrusive_ptr<T> const& a, intrusive_ptr<U> const& b)] *)
Definition ne_hh (a b : nat) : M bool :=
  x ← get a; y ← get b; ret (negb (ptr_eqb x y)).

(** [operator==(intrusive_ptr<T> const& a, U* b)] *)
Definition eq_hp (a : nat) (b : N) : M bool :=
  x ← get a; ret (ptr_eqb x b).

(** [operator!=(intrusive_ptr<T> const& a, U* b)] *)
Definition ne_hp (a : nat) (b : N) : M bool :=
  x ← get a; ret (negb (ptr_eqb x b)).

(** [operator==(T* a, intrusive_ptr<U> const& b)] *)
Definition eq_ph (a : N) (b : nat) : M bool :=
  y ← get b; ret (ptr_eqb a y).

(** [operator!=(T* a, intrusive_ptr<U> const& b)] *)
Definition ne_ph (a : N) (b : nat) : M bool :=
  y ← get b; ret (negb (ptr_eqb a y)).

(** [operator<(intrusive_ptr<T> const& a, intrusive_ptr<T> const& b)]:
    [std::less<T*>] is the total order of addresses. *)
Definition lt_hh (a b : nat) : M bool :=
  x ← get a; y ← get b; ret (N.ltb x y).

(** Free function [swap(intrusive_ptr<T>& a, intrusive_ptr<T>& b)]. *)
Definition swap_free (a b : nat) : M unit := swap a b.

End intrusive_ptr.

Import intrusive_ptr.

(** ** Pointees embedding the counter base *)

(** Begin the lifetime of a pointee at address [a] whose base subobject is
    [c]. *)
Definition place (a : N) (c : intrusive_ref_counter.t) : M unit :=
  λ w, if decide (a = nullptr) then None else
       match heap w !! a with
       | Some _ => None
       | None =>
           Some (tt, World (<[a := intrusive_ref_counter.counter c]> (heap w))
                           (handles w) (trace w))
       end.

(** The base subobject of the pointee at address [a]. *)
Definition object (a : N) : M intrusive_ref_counter.t :=
  c ← use_count a; mret (intrusive_ref_counter.Make c).

(** [new Derived()] at address [a]. *)
Definition new_default (a : N) : M unit :=
  place a intrusive_ref_counter.ctor_default.

(** [new Derived( *src )] at address [a]. *)
Definition new_copy (a src : N) : M unit :=
  s ← object src;
  place a (intrusive_ref_counter.ctor_copy s).

(** Write back the base subobject of the pointee at address [a]. *)
Definition overwrite (a : N) (c : intrusive_ref_counter.t) : M unit :=
  λ w, Some (tt, World (<[a := intrusive_ref_counter.counter c]> (heap w))
                       (handles w) (trace w)).

(** [*dst = *src]. *)
Definition assign_object (dst src : N) : M unit :=
  d ← object dst;
  s ← object src;
  overwrite dst (intrusive_ref_counter.assign d s).

(** ** Client programs: finite sequences of handle operations *)

Inductive op : Type :=
  | OpCtorDefault (this : nat)
  | OpCtorRaw (this : nat) (p : N) (add_ref : bool)
  | OpCtorCopy (this r : nat)
  | OpCtorCopyConv (this r : nat)
  | OpCtorMove (this r : nat)
  | OpCtorMoveConv (this r : nat)
  | OpDtor (this : nat)
  | OpAssignCopy (this r : nat)
  | OpAssignCopyConv (this r : nat)
  | OpAssignRaw (this : nat) (p : N)
  | OpAssignMove (this r : nat)
  | OpAssignMoveConv (this r : nat)
  | OpReset (this : nat)
  | OpResetRaw (this : nat) (p : N)
  | OpResetRawFlag (this : nat) (p : N) (add_ref : bool)
  | OpDetach (this : nat)
  | OpSwap (a b : nat).

Definition exec (o : op) : M unit :=
  match o with
  | OpCtorDefault this => ctor_default this
  | OpCtorRaw this p add_ref => ctor_raw this p add_ref
  | OpCtorCopy this r => ctor_copy this r
  | OpCtorCopyConv this r => ctor_copy_conv this r
  | OpCtorMove this r => ctor_move this r
  | OpCtorMoveConv this r => ctor_move_conv this r
  | OpDtor this => dtor this
  | OpAssignCopy this r => assign_copy this r
  | OpAssignCopyConv this r => assign_copy_conv this r
  | OpAssignRaw this p => assign_raw this p
  | OpAssignMove this r => assign_move this r
  | OpAssignMoveConv this r => assign_move_conv this r
  | OpReset this => reset this
  | OpResetRaw this p => reset_raw this p
  | OpResetRawFlag this p add_ref => reset_raw_flag this p add_ref
  | OpDetach this => detach this;; mret tt
  | OpSwap a b => swap a b
  end.

Fixpoint run (os : list op) : M unit :=
  match os with
  | [] => mret tt
  | o :: os' => exec o;; run os'
  end.

(** [h = intrusive_ptr(p, add_ref)]: a temporary is constructed from the raw
    pointer, move-assigned to [this], and destroyed at the end of the
    statement. *)
Definition assign_fresh (this : nat) (p : N) (add_ref : bool) : M unit :=
  tmp ← temporary;
  ctor_raw tmp p add_ref;;
  assign_move this tmp;;
  dtor tmp.

(** ** Ownership accounting for one pointee *)

(** Replace the handle store of a world. *)
Definition set_handles (hs : gmap nat N) (w : world) : world :=
  World (heap w) hs (trace w).

Definition rehandle (hs : gmap nat N) (r : option (unit * world))
  : option (unit * world) :=
  match r with
  | Some (u, w) => Some (u, set_handles hs w)
  | None => None
  end.

(** Computations that only call hooks: they commute with any change of the
    handle store. *)
Definition hook_only (k : M unit) : Prop :=
  ∀ hs w, k (set_handles hs w) = rehandle hs (k w).

(** The guarded hook calls as they occur in the constructors and in the
    destructor. *)
Definition add_ref_if (p : N) (b : bool) : M unit :=
  when (negb (is_null p) && b) (intrusive_ptr_add_ref p).
Definition release_if (m : N) : M unit :=
  when (negb (is_null m)) (intrusive_ptr_release m).

(** Number of live handles whose [m_pointer] is [P]. *)
Definition holders (P : N) (hs : gmap nat N) : Z :=
  Z.of_nat (size (filter (λ kv : nat * N, kv.2 = P) hs)).

Definition ind (P q : N) : Z := if decide (q = P) then 1 else 0.
Definition owns (P : N) (o : option N) : Z :=
  match o with
  | Some q => ind P q
  | None => 0
  end.

(** Number of occurrences of an event in a trace. *)
Fixpoint tally (e : event) (tr : list event) : Z :=
  match tr with
  | [] => 0
  | x :: tr' => (if decide (x = e) then 1 else 0) + tally e tr'
  end.
Definition adds (P : N) (tr : list event) : Z := tally (EvAddRef P) tr.
Definition rels (P : N) (tr : list event) : Z := tally (EvRelease P) tr.
Definition dels (P : N) (tr : list event) : Z := tally (EvDelete P) tr.

(** The books of pointee [P] when [n] owning references to it are live:
    increments minus decrements is [n]; while [P] is alive its counter is
    [n] and it was never deleted; once it is gone nobody owns it and it was
    deleted once. *)
Definition ledger (P : N) (hp : gmap N Z) (tr : list event) (n : Z) : Prop :=
  0 ≤ n < UINT_MODULUS ∧
  adds P tr - rels P tr = n ∧
  match hp !! P with
  | Some c => c = n ∧ dels P tr = 0
  | None => n = 0 ∧ dels P tr = 1
  end.

(** Owning references to [P]: the handles holding [P], plus [g] counted
    references held as raw pointers by the client (handed out by [detach],
    taken back by the constructions that skip the increment). *)
Definition owners (P : N) (w : world) (g : nat) : Z :=
  holders P (handles w) + Z.of_nat g.

Definition account (P : N) (w : world) (g : nat) : Prop :=
  ledger P (heap w) (trace w) (owners P w g).

(** Raw references to [P] that an operation takes over without counting. *)
Definition adopts (P : N) (o : op) : nat :=
  match o with
  | OpCtorRaw _ p false | OpResetRawFlag _ p false =>
      if decide (p = P) then 1 else 0
  | _ => 0
  end.

(** Raw references to [P] that an operation hands to the client. *)
Definition yields (P : N) (o : op) (w : world) : nat :=
  match o with
  | OpDetach this => if decide (handles w !! this = Some P) then 1 else 0
  | _ => 0
  end.

(** One operation of a disciplined client: a construction that skips the
    increment takes over a raw reference the client really holds, and the
    number of owners stays representable in the counter. *)
Definition exec_owned (P : N) (o : op) (s : world * nat)
  : option (world * nat) :=
  let '(w, g) := s in
  if decide (adopts P o ≤ g)%nat then
    match exec o w with
    | Some (_, w') =>
        let g' := (g - adopts P o + yields P o w)%nat in
        if decide (owners P w' g' < UINT_MODULUS) then Some (w', g') else None
    | None => None
    end
  else None.

Fixpoint run_owned (P : N) (os : list op) (s : world * nat)
  : option (world * nat) :=
  match os with
  | [] => Some s
  | o :: os' =>
      match exec_owned P o s with
      | Some s' => run_owned P os' s'
      | None => None
      end
  end.

(** ** Normal forms, lifetimes and soundness of worlds *)

(** The hook calls and the handle store of one operation, read off the
    handle store alone: the pointer that may be incremented and whether it
    is, the pointer that may be decremented, and the new store; [None] when
    the operation is applied to handle objects that do not exist (or
    constructs one that does). *)
Definition shape (o : op) (hs : gmap nat N)
  : option (N * bool * N * gmap nat N) :=
  match o with
  | OpCtorDefault this =>
      match hs !! this with
      | None => Some (nullptr, false, nullptr, <[this:=nullptr]> hs)
      | Some _ => None
      end
  | OpCtorRaw this p b =>
      match hs !! this with
      | None => Some (p, b, nullptr, <[this:=p]> hs)
      | Some _ => None
      end
  | OpCtorCopy this r | OpCtorCopyConv this r =>
      match hs !! r, hs !! this with
      | Some p, None => Some (p, true, nullptr, <[this:=p]> hs)
      | _, _ => None
      end
  | OpCtorMove this r | OpCtorMoveConv this r =>
      match hs !! r, hs !! this with
      | Some p, None =>
          Some (nullptr, false, nullptr, <[r:=nullptr]> (<[this:=p]> hs))
      | _, _ => None
      end
  | OpDtor this =>
      match hs !! this with
      | Some m => Some (nullptr, false, m, delete this hs)
      | None => None
      end
  | OpAssignCopy this r =>
      match hs !! r, hs !! this with
      | Some p, Some m =>
          if decide (p = m) then Some (nullptr, false, nullptr, hs)
          else Some (p, true, m, <[this:=p]> hs)
      | _, _ => None
      end
  | OpAssignCopyConv this r =>
      match hs !! r, hs !! this with
      | Some p, Some m => Some (p, true, m, <[this:=p]> hs)
      | _, _ => None
      end
  | OpAssignRaw this p | OpResetRaw this p =>
      match hs !! this with
      | Some m => Some (p, true, m, <[this:=p]> hs)
      | None => None
      end
  | OpResetRawFlag this p b =>
      match hs !! this with
      | Some m => Some (p, b, m, <[this:=p]> hs)
      | None => None
      end
  | OpAssignMove this r =>
      match hs !! r, hs !! this with
      | Some p, Some m =>
          if decide (p = m) then Some (nullptr, false, nullptr, hs)
          else Some (nullptr, false, m, <[this:=p]> (<[r:=nullptr]> hs))
      | _, _ => None
      end
  | OpAssignMoveConv this r =>
      match hs !! r, hs !! this with
      | Some p, Some m =>
          Some (nullptr, false, if decide (this = r) then nullptr else m,
                <[this:=p]> (<[r:=nullptr]> hs))
      | _, _ => None
      end
  | OpReset this =>
      match hs !! this with
      | Some m => Some (nullptr, false, m, <[this:=nullptr]> hs)
      | None => None
      end
  | OpDetach this =>
      match hs !! this with
      | Some m => Some (nullptr, false, nullptr, <[this:=nullptr]> hs)
      | None => None
      end
  | OpSwap a b =>
      match hs !! a, hs !! b with
      | Some x, Some y =>
          Some (nullptr, false, nullptr, <[b:=x]> (<[a:=y]> hs))
      | _, _ => None
      end
  end.

(** The hook calls of [shape] applied to the updated world. *)
Definition hooks_of (o : op) (w : world) : option (unit * world) :=
  match shape o (handles w) with
  | Some (p, b, m, hs') =>
      (add_ref_if p b;; release_if m) (World (heap w) hs' (trace w))
  | None => None
  end.

(** The handle objects an operation is applied to. *)
Definition names (o : op) : list nat :=
  match o with
  | OpCtorDefault this | OpCtorRaw this _ _ | OpDtor this | OpAssignRaw this _
  | OpReset this | OpResetRaw this _ | OpResetRawFlag this _ _
  | OpDetach this => [this]
  | OpCtorCopy this r | OpCtorCopyConv this r | OpCtorMove this r
  | OpCtorMoveConv this r | OpAssignCopy this r | OpAssignCopyConv this r
  | OpAssignMove this r | OpAssignMoveConv this r => [this; r]
  | OpSwap a b => [a; b]
  end.

(** The live handle objects after an operation: a constructor adds the
    constructed one, the destructor removes the destroyed one. *)
Definition lifetimes (o : op) (D : gset nat) : gset nat :=
  match o with
  | OpCtorDefault this | OpCtorRaw this _ _ | OpCtorCopy this _
  | OpCtorCopyConv this _ | OpCtorMove this _ | OpCtorMoveConv this _ =>
      {[ this ]} ∪ D
  | OpDtor this => D ∖ {[ this ]}
  | _ => D
  end.

(** Operations that count every reference they create and keep every
    counted reference inside a handle. *)
Definition counting (o : op) : bool :=
  match o with
  | OpCtorRaw _ _ false | OpResetRawFlag _ _ false | OpDetach _ => false
  | _ => true
  end.

(** Every live pointee's books are in order with no raw reference
    outstanding, and no handle holds a pointee that is gone. *)
Definition sound (w : world) : Prop :=
  ∀ P, P ≠ nullptr →
    match heap w !! P with
    | Some _ => account P w 0
    | None => holders P (handles w) = 0
    end.

(** ** Example worlds *)

(** One pointee at address 1, just created, no handle yet. *)
Definition fresh_world : world := World {[ 1%N := 0 ]} ∅ [].

(** One pointee at address 1 with count [c], owned by handle 0. *)
Definition sole_world (c : Z) : world :=
  World {[ 1%N := c ]} {[ 0%nat := 1%N ]} [].

(** One pointee at address 1 with count 2, shared by handles 0 and 1. *)
Definition shared_world : world :=
  World {[ 1%N := 2 ]} {[ 0%nat := 1%N; 1%nat := 1%N ]} [].

(** Handle 0 still holds address 1 although the pointee there is gone. *)
Definition dangling_world : world := World ∅ {[ 0%nat := 1%N ]} [].

(** Pointees at addresses 1 and 2, owned by handles 0 and 1. *)
Definition two_world : world :=
  World {[ 1%N := 1; 2%N := 1 ]} {[ 0%nat := 1%N; 1%nat := 2%N ]} [].

(** * Reasoning about the embedding *)

(** ** The monad and the primitive accesses *)

Ltac unfold_monad :=
  unfold mbind, M_bind, mret, M_ret, bind, ret, when in *.

Lemma bind_unfold {A B} (m : M A) (k : A → M B) w :
  (m ≫= k) w = match m w with Some (a, w') => k a w' | None => None end.
Proof. reflexivity. Qed.

(** Extensional equality of two handle stores built from inserts and
    deletes. *)
Ltac map_ext :=
  let i := fresh "i" in
  apply map_eq; intros i;
  repeat (rewrite lookup_insert || rewrite lookup_delete);
  repeat case_decide; simplify_eq; try done; try congruence.

Lemma load_Some w h p : handles w !! h = Some p → load h w = Some (p, w).
Proof. intros H. unfold load. by rewrite H. Qed.
Lemma store_Some w h q p :
  handles w !! h = Some q →
  store h p w = Some (tt, set_handles (<[h:=p]> (handles w)) w).
Proof. intros H. unfold store. by rewrite H. Qed.
Lemma alloc_Some w h p :
  handles w !! h = None →
  alloc h p w = Some (tt, set_handles (<[h:=p]> (handles w)) w).
Proof. intros H. unfold alloc. by rewrite H. Qed.
Lemma free_Some w h q :
  handles w !! h = Some q →
  free h w = Some (tt, set_handles (delete h (handles w)) w).
Proof. intros H. unfold free. by rewrite H. Qed.

Lemma temporary_fresh (hs : gmap nat N) : hs !! fresh (dom hs) = None.
Proof. apply not_elem_of_dom, is_fresh. Qed.

(** ** Hook calls commute with the handle store *)

Lemma add_ref_frame p hs w :
  intrusive_ptr_add_ref p (set_handles hs w)
  = rehandle hs (intrusive_ptr_add_ref p w).
Proof.
  unfold intrusive_ptr_add_ref. case_decide; [done|]. cbn.
  by destruct (heap w !! p).
Qed.
Lemma release_frame p hs w :
  intrusive_ptr_release p (set_handles hs w)
  = rehandle hs (intrusive_ptr_release p w).
Proof.
  unfold intrusive_ptr_release. case_decide; [done|]. cbn.
  destruct (heap w !! p); [|done]. cbn. by case_match.
Qed.

Lemma set_handles_id w : set_handles (handles w) w = w.
Proof. by destruct w. Qed.
Lemma set_handles_twice hs hs' w :
  set_handles hs (set_handles hs' w) = set_handles hs w.
Proof. done. Qed.

Lemma hook_only_ret : hook_only (mret tt).
Proof. done. Qed.
Lemma hook_only_add_ref p : hook_only (intrusive_ptr_add_ref p).
Proof. intros hs w. apply add_ref_frame. Qed.
Lemma hook_only_release p : hook_only (intrusive_ptr_release p).
Proof. intros hs w. apply release_frame. Qed.
Lemma hook_only_when b k : hook_only k → hook_only (when b k).
Proof. destruct b; [done|]. intros _. apply hook_only_ret. Qed.
Lemma hook_only_seq k1 k2 : hook_only k1 → hook_only k2 → hook_only (k1;; k2).
Proof.
  intros H1 H2 hs w. unfold_monad. rewrite H1.
  destruct (k1 w) as [[[] w1]|]; cbn; [|done]. apply H2.
Qed.
Create HintDb hooks.
#[global] Hint Resolve hook_only_ret hook_only_add_ref hook_only_release
  hook_only_when hook_only_seq : hooks.

Lemma hook_only_handles k w u w1 :
  hook_only k → k w = Some (u, w1) → handles w1 = handles w.
Proof.
  intros Hk Hw. specialize (Hk (handles w) w).
  rewrite set_handles_id, Hw in Hk. cbn in Hk. destruct u. by injection Hk as ->.
Qed.

(** Hooks followed by an update of the handle store: the update can be
    done first. *)
Lemma hook_then k (f : M unit) hs' w :
  hook_only k →
  (∀ w1, handles w1 = handles w → f w1 = Some (tt, set_handles hs' w1)) →
  (k;; f) w = k (set_handles hs' w).
Proof.
  intros Hk Hf. rewrite Hk. unfold_monad.
  destruct (k w) as [[[] w1]|] eqn:E; cbn; [|done].
  apply Hf. by eapply hook_only_handles.
Qed.

Lemma hook_only_release_if m : hook_only (release_if m).
Proof. unfold release_if; auto with hooks. Qed.
Lemma hook_only_add_ref_if p b : hook_only (add_ref_if p b).
Proof. unfold add_ref_if; auto with hooks. Qed.
#[global] Hint Resolve hook_only_release_if hook_only_add_ref_if : hooks.

(** ** Closed forms of the member functions

    Given the pointers held by the handles involved, every member function
    is a sequence of guarded hook calls applied to the world whose handle
    store has already been updated. *)

Lemma ctor_default_run w this :
  handles w !! this = None →
  ctor_default this w = Some (tt, set_handles (<[this:=nullptr]> (handles w)) w).
Proof. apply alloc_Some. Qed.

Lemma ctor_raw_run w this p b :
  handles w !! this = None →
  ctor_raw this p b w = add_ref_if p b (set_handles (<[this:=p]> (handles w)) w).
Proof.
  intros H. unfold ctor_raw. rewrite bind_unfold, (alloc_Some _ _ _ H).
  rewrite bind_unfold, (load_Some _ _ p); [done|]. cbn. by simplify_map_eq.
Qed.

Lemma ctor_copy_run w this r p :
  handles w !! this = None → handles w !! r = Some p →
  ctor_copy this r w = add_ref_if p true (set_handles (<[this:=p]> (handles w)) w).
Proof.
  intros H Hr. unfold ctor_copy. rewrite bind_unfold, (load_Some _ _ _ Hr).
  rewrite bind_unfold, (alloc_Some _ _ _ H).
  rewrite bind_unfold, (load_Some _ _ p); [|cbn; by simplify_map_eq].
  unfold add_ref_if. by rewrite andb_true_r.
Qed.

Lemma ctor_copy_conv_run w this r :
  ctor_copy_conv this r w = ctor_copy this r w.
Proof. done. Qed.

Lemma ctor_move_run w this r p :
  handles w !! this = None → handles w !! r = Some p →
  ctor_move this r w = Some (tt, set_handles (<[r:=nullptr]> (<[this:=p]> (handles w))) w).
Proof.
  intros H Hr. unfold ctor_move. rewrite bind_unfold, (load_Some _ _ _ Hr).
  rewrite bind_unfold, (alloc_Some _ _ _ H).
  rewrite (store_Some _ _ p); [done|]. cbn.
  rewrite lookup_insert_ne; [done|]. congruence.
Qed.

Lemma detach_run w this m :
  handles w !! this = Some m →
  detach this w = Some (m, set_handles (<[this:=nullptr]> (handles w)) w).
Proof.
  intros H. unfold detach. rewrite bind_unfold, (load_Some _ _ _ H).
  by rewrite bind_unfold, (store_Some _ _ _ _ H).
Qed.

Lemma ctor_move_conv_run w this r p :
  handles w !! this = None → handles w !! r = Some p →
  ctor_move_conv this r w = Some (tt, set_handles (<[r:=nullptr]> (<[this:=p]> (handles w))) w).
Proof.
  intros H Hr. unfold ctor_move_conv, get.
  rewrite bind_unfold, (load_Some _ _ _ Hr).
  rewrite bind_unfold, (alloc_Some _ _ _ H).
  rewrite bind_unfold, (detach_run _ _ p); [done|]. cbn.
  rewrite lookup_insert_ne; [done|]. congruence.
Qed.

Lemma swap_run w a b x y :
  handles w !! a = Some x → handles w !! b = Some y →
  swap a b w = Some (tt, set_handles (<[b:=x]> (<[a:=y]> (handles w))) w).
Proof.
  intros Ha Hb. unfold swap. rewrite bind_unfold, (load_Some _ _ _ Ha).
  rewrite bind_unfold, (load_Some _ _ _ Hb).
  rewrite bind_unfold, (store_Some _ _ _ _ Ha).
  destruct (decide (a = b)) as [->|Hne].
  - rewrite (store_Some _ _ y); [done|]. cbn. by simplify_map_eq.
  - rewrite (store_Some _ _ y); [done|]. cbn. by simplify_map_eq.
Qed.

Lemma dtor_run w this m :
  handles w !! this = Some m →
  dtor this w = release_if m (set_handles (delete this (handles w)) w).
Proof.
  intros H. unfold dtor. rewrite bind_unfold, (load_Some _ _ _ H).
  apply (hook_then (release_if m)); [auto with hooks|].
  intros w1 Hw1. rewrite (free_Some _ _ m) by (by rewrite Hw1). by rewrite Hw1.
Qed.

Lemma reset_run w this m :
  handles w !! this = Some m →
  reset this w = release_if m (set_handles (<[this:=nullptr]> (handles w)) w).
Proof.
  intros H. unfold reset. rewrite bind_unfold, (load_Some _ _ _ H).
  unfold release_if, when. destruct (negb (is_null m)) eqn:E.
  - apply (hook_then (intrusive_ptr_release m)); [auto with hooks|].
    intros w1 Hw1. rewrite (store_Some _ _ m) by (by rewrite Hw1). by rewrite Hw1.
  - apply negb_false_iff, bool_decide_eq_true in E. subst m.
    unfold mret, M_ret, ret. by rewrite insert_id, set_handles_id.
Qed.


(** The temporary-and-swap idiom, once the temporary has been built. *)
Lemma swap_dtor_run w tmp this p m :
  handles w !! tmp = Some p → handles w !! this = Some m → tmp ≠ this →
  (swap tmp this;; dtor tmp) w
  = release_if m (set_handles (<[this:=p]> (delete tmp (handles w))) w).
Proof.
  intros Ht Hm Hne. rewrite bind_unfold, (swap_run _ _ _ _ _ Ht Hm).
  rewrite (dtor_run _ _ m); [|cbn; by simplify_map_eq].
  cbn. rewrite set_handles_twice. do 2 f_equal. map_ext.
Qed.

Lemma temp_swap_run (construct : nat → M unit) this w m :
  handles w !! this = Some m →
  temp_swap construct this w
  = match construct (fresh (dom (handles w))) w with
    | Some (_, w1) => (swap (fresh (dom (handles w))) this;; dtor (fresh (dom (handles w)))) w1
    | None => None
    end.
Proof. intros H. unfold temp_swap, alive. rewrite bind_unfold, H. done. Qed.

Lemma temp_swap_dead (construct : nat → M unit) this w :
  handles w !! this = None → temp_swap construct this w = None.
Proof. intros H. unfold temp_swap, alive. by rewrite bind_unfold, H. Qed.

Lemma ret_seq (k : M unit) w : (mret tt;; k) w = k w.
Proof. done. Qed.

Lemma temp_swap_hooks construct this w k hs' p m m0 :
  handles w !! this = Some m0 →
  hook_only k →
  construct (fresh (dom (handles w))) w
    = k (set_handles (<[fresh (dom (handles w)) := p]> hs') w) →
  hs' !! fresh (dom (handles w)) = None → hs' !! this = Some m →
  temp_swap construct this w
  = (k;; release_if m) (set_handles (<[this:=p]> hs') w).
Proof.
  intros Hm0 Hk Hc Htmp Hthis.
  rewrite (temp_swap_run _ _ _ m0), Hc, bind_unfold, !Hk by done.
  destruct (k w) as [[[] w1]|]; cbn; [|done].
  assert (fresh (dom (handles w)) ≠ this) as Hne by congruence.
  rewrite (swap_dtor_run _ _ _ p m); cbn; [| by simplify_map_eq ..| done].
  rewrite set_handles_twice. do 2 f_equal. map_ext.
Qed.

Lemma reset_raw_flag_run w this p b m :
  handles w !! this = Some m →
  reset_raw_flag this p b w
  = (add_ref_if p b;; release_if m) (set_handles (<[this:=p]> (handles w)) w).
Proof.
  intros H. apply (temp_swap_hooks _ _ _ _ _ _ _ m); auto using temporary_fresh with hooks.
  apply ctor_raw_run, temporary_fresh.
Qed.

Lemma reset_raw_run w this p m :
  handles w !! this = Some m →
  reset_raw this p w
  = (add_ref_if p true;; release_if m) (set_handles (<[this:=p]> (handles w)) w).
Proof. apply reset_raw_flag_run. Qed.

Lemma assign_raw_run w this p m :
  handles w !! this = Some m →
  assign_raw this p w
  = (add_ref_if p true;; release_if m) (set_handles (<[this:=p]> (handles w)) w).
Proof. apply reset_raw_flag_run. Qed.

Lemma assign_copy_conv_run w this r p m :
  handles w !! r = Some p → handles w !! this = Some m →
  assign_copy_conv this r w
  = (add_ref_if p true;; release_if m) (set_handles (<[this:=p]> (handles w)) w).
Proof.
  intros Hr H. apply (temp_swap_hooks _ _ _ _ _ _ _ m); auto using temporary_fresh with hooks.
  rewrite ctor_copy_conv_run. apply ctor_copy_run; auto using temporary_fresh.
Qed.

Lemma assign_copy_same w this r p :
  handles w !! r = Some p → handles w !! this = Some p →
  assign_copy this r w = Some (tt, w).
Proof.
  intros Hr H. unfold assign_copy.
  rewrite bind_unfold, (load_Some _ _ _ Hr), bind_unfold, (load_Some _ _ _ H).
  unfold ptr_eqb. by rewrite bool_decide_eq_true_2.
Qed.

Lemma assign_copy_run w this r p m :
  handles w !! r = Some p → handles w !! this = Some m → p ≠ m →
  assign_copy this r w
  = (add_ref_if p true;; release_if m) (set_handles (<[this:=p]> (handles w)) w).
Proof.
  intros Hr H Hne. unfold assign_copy.
  rewrite bind_unfold, (load_Some _ _ _ Hr), bind_unfold, (load_Some _ _ _ H).
  unfold ptr_eqb. rewrite bool_decide_eq_false_2 by done. cbn.
  by apply assign_copy_conv_run.
Qed.

Lemma temp_swap_move construct w this r p m :
  handles w !! r = Some p → handles w !! this = Some m →
  construct (fresh (dom (handles w))) w
    = Some (tt, set_handles (<[r:=nullptr]> (<[fresh (dom (handles w)):=p]> (handles w))) w) →
  temp_swap construct this w
  = release_if (if decide (this = r) then nullptr else m)
      (set_handles (<[this:=p]> (<[r:=nullptr]> (handles w))) w).
Proof.
  intros Hr H Hc. pose proof (temporary_fresh (handles w)) as Hf.
  rewrite <- (ret_seq (release_if _) (set_handles _ w)).
  apply (temp_swap_hooks _ _ _ _ _ _ _ m); auto with hooks.
  - rewrite Hc. unfold mret, M_ret, ret. do 3 f_equal. map_ext.
  - rewrite lookup_insert_ne; [done|]. congruence.
  - rewrite lookup_insert. case_decide; simplify_eq; case_decide; by simplify_eq.
Qed.

Lemma assign_move_conv_run w this r p m :
  handles w !! r = Some p → handles w !! this = Some m →
  assign_move_conv this r w
  = release_if (if decide (this = r) then nullptr else m)
      (set_handles (<[this:=p]> (<[r:=nullptr]> (handles w))) w).
Proof.
  intros Hr H. apply temp_swap_move; [done..|].
  apply ctor_move_conv_run; auto using temporary_fresh.
Qed.

Lemma assign_move_same w this r p :
  handles w !! r = Some p → handles w !! this = Some p →
  assign_move this r w = Some (tt, w).
Proof.
  intros Hr H. unfold assign_move.
  rewrite bind_unfold, (load_Some _ _ _ Hr), bind_unfold, (load_Some _ _ _ H).
  unfold ptr_eqb. by rewrite bool_decide_eq_true_2.
Qed.

Lemma assign_move_run w this r p m :
  handles w !! r = Some p → handles w !! this = Some m → p ≠ m →
  assign_move this r w
  = release_if m (set_handles (<[this:=p]> (<[r:=nullptr]> (handles w))) w).
Proof.
  intros Hr H Hne. unfold assign_move.
  rewrite bind_unfold, (load_Some _ _ _ Hr), bind_unfold, (load_Some _ _ _ H).
  unfold ptr_eqb. rewrite bool_decide_eq_false_2 by done. cbn.
  rewrite (temp_swap_move _ _ _ r p m);
    [| done .. | apply ctor_move_run; auto using temporary_fresh].
  rewrite decide_False; [done|]. congruence.
Qed.

(** ** Counting holders and events *)


Lemma tally_app e tr tr' : tally e (tr ++ tr') = tally e tr + tally e tr'.
Proof. induction tr as [|x tr IH]; cbn [tally app]; lia. Qed.
Lemma tally_one e x : tally e [x] = if decide (x = e) then 1 else 0.
Proof. cbn [tally]. lia. Qed.
Lemma tally_two e x y :
  tally e [x; y]
  = (if decide (x = e) then 1 else 0) + (if decide (y = e) then 1 else 0).
Proof. cbn [tally]. lia. Qed.

Lemma holders_nonneg P hs : 0 ≤ holders P hs.
Proof. unfold holders. lia. Qed.

Lemma holders_delete P h hs :
  holders P (delete h hs) = holders P hs - owns P (hs !! h).
Proof.
  unfold holders. rewrite map_filter_delete, map_size_delete.
  rewrite map_lookup_filter. destruct (hs !! h) as [q|] eqn:E; cbn.
  - unfold ind. destruct (decide (q = P)) as [->|Hne].
    + rewrite option_guard_True by done. cbn.
      assert (size (filter (λ kv : nat * N, kv.2 = P) hs) ≠ 0%nat); [|lia].
      intros Hz%map_size_empty_iff.
      assert (filter (λ kv : nat * N, kv.2 = P) hs !! h = Some P) as Hl
        by (by apply map_lookup_filter_Some).
      rewrite Hz in Hl. by rewrite lookup_empty in Hl.
    + rewrite option_guard_False by done. cbn. lia.
  - lia.
Qed.

Lemma holders_insert_fresh P h q hs :
  hs !! h = None → holders P (<[h:=q]> hs) = holders P hs + ind P q.
Proof.
  intros H. unfold holders, ind. rewrite map_filter_insert. cbn.
  destruct (decide (q = P)) as [->|Hne].
  - rewrite map_size_insert_None; [lia|].
    by rewrite map_lookup_filter, H.
  - rewrite delete_id by done. lia.
Qed.

Lemma holders_insert P h q hs :
  holders P (<[h:=q]> hs) = holders P hs - owns P (hs !! h) + ind P q.
Proof.
  rewrite <- insert_delete_eq, holders_insert_fresh by apply lookup_delete_eq.
  by rewrite holders_delete.
Qed.

Lemma holders_lookup P h hs : hs !! h = Some P → 1 ≤ holders P hs.
Proof.
  intros H. pose proof (holders_delete P h hs) as Hd. rewrite H in Hd. cbn in Hd.
  unfold ind in Hd. rewrite decide_True in Hd by done.
  pose proof (holders_nonneg P (delete h hs)). lia.
Qed.

(** The effect of one increment on the ledger of [P]. *)
Lemma add_ref_ledger P q w w' :
  intrusive_ptr_add_ref q w = Some (tt, w') →
  handles w' = handles w ∧
  adds P (trace w') = adds P (trace w) + ind P q ∧
  rels P (trace w') = rels P (trace w) ∧
  dels P (trace w') = dels P (trace w) ∧
  if decide (q = P)
  then ∃ c, heap w !! P = Some c ∧ heap w' !! P = Some (wrap32 (c + 1))
  else heap w' !! P = heap w !! P.
Proof.
  unfold intrusive_ptr_add_ref. case_decide; [done|].
  destruct (heap w !! q) as [c|] eqn:E; [|done]. intros [= <-]. cbn.
  unfold adds, rels, dels, ind. rewrite !tally_app, !tally_one.
  repeat case_decide; simplify_eq; repeat split; try lia.
  - exists c. by rewrite lookup_insert_eq.
  - by rewrite lookup_insert_ne.
Qed.

(** The effect of one decrement on the ledger of [P]. *)
Lemma release_ledger P q w w' :
  intrusive_ptr_release q w = Some (tt, w') →
  handles w' = handles w ∧
  adds P (trace w') = adds P (trace w) ∧
  rels P (trace w') = rels P (trace w) + ind P q ∧
  if decide (q = P)
  then ∃ c, heap w !! P = Some c ∧
         if decide (wrap32 (c - 1) = 0)
         then heap w' !! P = None ∧ dels P (trace w') = dels P (trace w) + 1
         else heap w' !! P = Some (wrap32 (c - 1)) ∧
              dels P (trace w') = dels P (trace w)
  else heap w' !! P = heap w !! P ∧ dels P (trace w') = dels P (trace w).
Proof.
  unfold intrusive_ptr_release. case_decide; [done|].
  destruct (heap w !! q) as [c|] eqn:E; [|done]. cbn.
  destruct (Z.eqb_spec (wrap32 (c - 1)) 0) as [Hz|Hz]; intros [= <-]; cbn;
    unfold adds, rels, dels, ind; rewrite !tally_app, ?tally_one, ?tally_two;
    repeat case_decide; simplify_eq; repeat split; try lia.
  - exists c. rewrite decide_True by done. rewrite lookup_delete_eq.
    split; [done|]. split; [done|lia].
  - by rewrite lookup_delete_ne.
  - exists c. rewrite decide_False by done. rewrite lookup_insert_eq.
    split; [done|]. split; [done|lia].
  - by rewrite lookup_insert_ne.
Qed.

Lemma add_ref_if_ledger P p b w w' :
  P ≠ nullptr →
  add_ref_if p b w = Some (tt, w') →
  handles w' = handles w ∧
  adds P (trace w') = adds P (trace w) + (if b then ind P p else 0) ∧
  rels P (trace w') = rels P (trace w) ∧
  dels P (trace w') = dels P (trace w) ∧
  if decide (p = P ∧ b = true)
  then ∃ c, heap w !! P = Some c ∧ heap w' !! P = Some (wrap32 (c + 1))
  else heap w' !! P = heap w !! P.
Proof.
  intros HP. unfold add_ref_if, when, is_null.
  destruct b; rewrite ?andb_true_r, ?andb_false_r; cbn.
  - case_bool_decide as Hn; cbn.
    + intros [= <-]. unfold ind. subst p.
      rewrite !decide_False by (intuition congruence).
      repeat split; lia.
    + intros H. destruct (add_ref_ledger P _ _ _ H) as (?&?&?&?&?).
      repeat split; try done. repeat case_decide; tauto.
  - intros [= <-]. rewrite decide_False by (intuition congruence).
    repeat split; lia.
Qed.

Lemma release_if_ledger P m w w' :
  P ≠ nullptr →
  release_if m w = Some (tt, w') →
  handles w' = handles w ∧
  adds P (trace w') = adds P (trace w) ∧
  rels P (trace w') = rels P (trace w) + ind P m ∧
  if decide (m = P)
  then ∃ c, heap w !! P = Some c ∧
         if decide (wrap32 (c - 1) = 0)
         then heap w' !! P = None ∧ dels P (trace w') = dels P (trace w) + 1
         else heap w' !! P = Some (wrap32 (c - 1)) ∧
              dels P (trace w') = dels P (trace w)
  else heap w' !! P = heap w !! P ∧ dels P (trace w') = dels P (trace w).
Proof.
  intros HP. unfold release_if, when, is_null.
  case_bool_decide as Hn; cbn.
  - intros [= <-]. unfold ind. subst m.
    rewrite !decide_False by congruence. repeat split; lia.
  - apply release_ledger.
Qed.

Lemma hooks_ledger P w p b m w' n :
  P ≠ nullptr →
  ledger P (heap w) (trace w) n →
  (add_ref_if p b;; release_if m) w = Some (tt, w') →
  (m = P → 1 ≤ n) →
  n + (if b then ind P p else 0) - ind P m < UINT_MODULUS →
  handles w' = handles w ∧
  ledger P (heap w') (trace w') (n + (if b then ind P p else 0) - ind P m) ∧
  dels P (trace w')
  = dels P (trace w)
    + (if decide (0 < n ∧ n + (if b then ind P p else 0) - ind P m = 0)
       then 1 else 0).
Proof.
  intros HP (Hn & Hbal & Hcnt) Hrun Hm Hn'. rewrite bind_unfold in Hrun.
  destruct (add_ref_if p b w) as [[[] w1]|] eqn:E1; [|done].
  apply (add_ref_if_ledger P) in E1 as (Hh1 & Ha1 & Hr1 & Hd1 & Hc1); [|done].
  apply (release_if_ledger P) in Hrun as (Hh2 & Ha2 & Hr2 & Hc2); [|done].
  split; [congruence|]. unfold ledger.
  rewrite Ha2, Hr2, Ha1, Hr1.
  unfold ind, wrap32, UINT_MODULUS in *.
  destruct (decide (p = P ∧ b = true)) as [[-> ->]|Hpb].
  - destruct Hc1 as (c & Hc & Hc1). rewrite Hc in Hcnt. destruct Hcnt as [-> Hd].
    rewrite decide_True in * by done.
    destruct (decide (m = P)) as [->|Hne].
    + destruct Hc2 as (c1 & Hc2 & Hc3). rewrite Hc1 in Hc2. injection Hc2 as <-.
      specialize (Hm eq_refl).
      assert (((n + 1) `mod` 4294967296 - 1) `mod` 4294967296 = n) as Hw.
      { destruct (decide (n + 1 = 4294967296)) as [Hmax|Hmax].
        - assert (n = 4294967295) as -> by lia. reflexivity.
        - rewrite (Z.mod_small (n + 1)) by lia. rewrite Z.mod_small; lia. }
      rewrite Hw in Hc3. rewrite decide_False in Hc3 by lia.
      destruct Hc3 as [-> ->]. rewrite decide_False by lia.
      repeat split; try lia.
    + destruct Hc2 as [-> ->]. rewrite Hc1.
      rewrite Z.mod_small by lia. rewrite decide_False by lia.
      repeat split; try lia.
  - assert ((if b then if decide (p = P) then 1 else 0 else 0) = 0) as Hz.
    { destruct b; [|done]. rewrite decide_False; [done|tauto]. }
    rewrite Hz in *.
    destruct (decide (m = P)) as [->|Hne].
    + destruct Hc2 as (c1 & Hc2 & Hc3). specialize (Hm eq_refl).
      rewrite Hc1 in Hc2. rewrite Hc2 in Hcnt. destruct Hcnt as [-> Hd].
      rewrite (Z.mod_small (n - 1)) in Hc3 by lia.
      destruct (decide (n - 1 = 0)) as [Hz1|Hz1].
      * destruct Hc3 as [-> ->]. rewrite decide_True by lia.
        repeat split; try lia.
      * destruct Hc3 as [-> ->]. rewrite decide_False by lia.
        repeat split; try lia.
    + destruct Hc2 as [-> ->]. rewrite Hc1.
      rewrite decide_False by lia. rewrite Hd1, !Z.add_0_r, !Z.sub_0_r.
      repeat split; try lia. destruct (heap w !! P); intuition lia.
Qed.

(** ** Every operation is hook calls around one update of the handle store *)


Lemma hooks_nothing w : (add_ref_if nullptr false;; release_if nullptr) w = Some (tt, w).
Proof. done. Qed.
Lemma hooks_add_only p b w :
  (add_ref_if p b;; release_if nullptr) w = add_ref_if p b w.
Proof. rewrite bind_unfold. by destruct (add_ref_if p b w) as [[[] ?]|]. Qed.
Lemma hooks_release_only m w :
  (add_ref_if nullptr false;; release_if m) w = release_if m w.
Proof. done. Qed.

Ltac holders_arith P :=
  rewrite ?holders_insert, ?holders_delete;
  rewrite ?lookup_insert, ?lookup_delete;
  repeat case_decide; simplify_eq;
  repeat match goal with
  | H : handles _ !! _ = _ |- _ => rewrite !H
  end;
  unfold owns, ind; cbn [Nat.sub Nat.add];
  repeat case_decide; simplify_eq; try lia.

Lemma exec_shape P o w w' g :
  P ≠ nullptr →
  exec o w = Some (tt, w') → (adopts P o ≤ g)%nat →
  ∃ p b m hs',
    exec o w = (add_ref_if p b;; release_if m) (set_handles hs' w) ∧
    (m = P → 1 ≤ holders P (handles w)) ∧
    holders P hs' + Z.of_nat (g - adopts P o + yields P o w)
    = holders P (handles w) + Z.of_nat g + (if b then ind P p else 0) - ind P m.
Proof.
  intros HP Hrun Hg. destruct o; cbn [exec adopts yields] in *.
  - (* OpCtorDefault *)
    destruct (handles w !! this) as [?|] eqn:Ht.
    { unfold ctor_default, alloc in Hrun. by rewrite Ht in Hrun. }
    exists nullptr, false, nullptr, (<[this:=nullptr]> (handles w)).
    split; [by rewrite hooks_nothing; apply ctor_default_run|].
    split; [congruence|]. holders_arith P.
  - (* OpCtorRaw *)
    destruct (handles w !! this) as [?|] eqn:Ht.
    { unfold ctor_raw, alloc in Hrun. by rewrite bind_unfold, Ht in Hrun. }
    exists p, add_ref, nullptr, (<[this:=p]> (handles w)).
    split; [by rewrite hooks_add_only; apply ctor_raw_run|].
    split; [congruence|]. destruct add_ref; holders_arith P.
  - (* OpCtorCopy *)
    destruct (handles w !! r) as [p|] eqn:Hr.
    2: { unfold ctor_copy, load in Hrun. by rewrite bind_unfold, Hr in Hrun. }
    destruct (handles w !! this) as [?|] eqn:Ht.
    { unfold ctor_copy, load, alloc in Hrun.
      by rewrite bind_unfold, Hr, bind_unfold, Ht in Hrun. }
    exists p, true, nullptr, (<[this:=p]> (handles w)).
    split; [by rewrite hooks_add_only; apply ctor_copy_run|].
    split; [congruence|]. holders_arith P.
  - (* OpCtorCopyConv *)
    destruct (handles w !! r) as [p|] eqn:Hr.
    2: { unfold ctor_copy_conv, get, load in Hrun. by rewrite bind_unfold, Hr in Hrun. }
    destruct (handles w !! this) as [?|] eqn:Ht.
    { unfold ctor_copy_conv, get, load, alloc in Hrun.
      by rewrite bind_unfold, Hr, bind_unfold, Ht in Hrun. }
    exists p, true, nullptr, (<[this:=p]> (handles w)).
    split; [by rewrite hooks_add_only, ctor_copy_conv_run; apply ctor_copy_run|].
    split; [congruence|]. holders_arith P.
  - (* OpCtorMove *)
    destruct (handles w !! r) as [p|] eqn:Hr.
    2: { unfold ctor_move, load in Hrun. by rewrite bind_unfold, Hr in Hrun. }
    destruct (handles w !! this) as [?|] eqn:Ht.
    { unfold ctor_move, load, alloc in Hrun.
      by rewrite bind_unfold, Hr, bind_unfold, Ht in Hrun. }
    exists nullptr, false, nullptr, (<[r:=nullptr]> (<[this:=p]> (handles w))).
    split; [by rewrite hooks_nothing; apply ctor_move_run|].
    split; [congruence|]. holders_arith P.
  - (* OpCtorMoveConv *)
    destruct (handles w !! r) as [p|] eqn:Hr.
    2: { unfold ctor_move_conv, get, load in Hrun. by rewrite bind_unfold, Hr in Hrun. }
    destruct (handles w !! this) as [?|] eqn:Ht.
    { unfold ctor_move_conv, get, load, alloc in Hrun.
      by rewrite bind_unfold, Hr, bind_unfold, Ht in Hrun. }
    exists nullptr, false, nullptr, (<[r:=nullptr]> (<[this:=p]> (handles w))).
    split; [by rewrite hooks_nothing; apply ctor_move_conv_run|].
    split; [congruence|]. holders_arith P.
  - (* OpDtor *)
    destruct (handles w !! this) as [m|] eqn:Ht.
    2: { unfold dtor, load in Hrun. by rewrite bind_unfold, Ht in Hrun. }
    exists nullptr, false, m, (delete this (handles w)).
    split; [by rewrite hooks_release_only; apply dtor_run|].
    split; [intros ->; by eapply holders_lookup|]. holders_arith P.
  - (* OpAssignCopy *)
    destruct (handles w !! r) as [p|] eqn:Hr.
    2: { unfold assign_copy, load in Hrun. by rewrite bind_unfold, Hr in Hrun. }
    destruct (handles w !! this) as [m|] eqn:Ht.
    2: { unfold assign_copy, load in Hrun.
         by rewrite bind_unfold, Hr, bind_unfold, Ht in Hrun. }
    destruct (decide (p = m)) as [->|Hne].
    + exists nullptr, false, nullptr, (handles w).
      split; [by rewrite hooks_nothing, set_handles_id; apply (assign_copy_same _ _ _ m)|].
      split; [congruence|]. holders_arith P.
    + exists p, true, m, (<[this:=p]> (handles w)).
      split; [by apply assign_copy_run|].
      split; [intros ->; by eapply holders_lookup|]. holders_arith P.
  - (* OpAssignCopyConv *)
    destruct (handles w !! this) as [m|] eqn:Ht.
    2: { unfold assign_copy_conv in Hrun. by rewrite temp_swap_dead in Hrun. }
    destruct (handles w !! r) as [p|] eqn:Hr.
    2: { unfold assign_copy_conv in Hrun.
         rewrite (temp_swap_run _ _ _ m) in Hrun by done.
         unfold ctor_copy_conv, get, load in Hrun.
         by rewrite bind_unfold, Hr in Hrun. }
    exists p, true, m, (<[this:=p]> (handles w)).
    split; [by apply assign_copy_conv_run|].
    split; [intros ->; by eapply holders_lookup|]. holders_arith P.
  - (* OpAssignRaw *)
    destruct (handles w !! this) as [m|] eqn:Ht.
    2: { unfold assign_raw in Hrun. by rewrite temp_swap_dead in Hrun. }
    exists p, true, m, (<[this:=p]> (handles w)).
    split; [by apply assign_raw_run|].
    split; [intros ->; by eapply holders_lookup|]. holders_arith P.
  - (* OpAssignMove *)
    destruct (handles w !! r) as [p|] eqn:Hr.
    2: { unfold assign_move, load in Hrun. by rewrite bind_unfold, Hr in Hrun. }
    destruct (handles w !! this) as [m|] eqn:Ht.
    2: { unfold assign_move, load in Hrun.
         by rewrite bind_unfold, Hr, bind_unfold, Ht in Hrun. }
    destruct (decide (p = m)) as [->|Hne].
    + exists nullptr, false, nullptr, (handles w).
      split; [by rewrite hooks_nothing, set_handles_id; apply (assign_move_same _ _ _ m)|].
      split; [congruence|]. holders_arith P.
    + exists nullptr, false, m, (<[this:=p]> (<[r:=nullptr]> (handles w))).
      split; [by rewrite hooks_release_only; apply assign_move_run|].
      split; [intros ->; by eapply holders_lookup|]. holders_arith P.
  - (* OpAssignMoveConv *)
    destruct (handles w !! this) as [m|] eqn:Ht.
    2: { unfold assign_move_conv in Hrun. by rewrite temp_swap_dead in Hrun. }
    destruct (handles w !! r) as [p|] eqn:Hr.
    2: { unfold assign_move_conv in Hrun.
         rewrite (temp_swap_run _ _ _ m) in Hrun by done.
         unfold ctor_move_conv, get, load in Hrun.
         by rewrite bind_unfold, Hr in Hrun. }
    exists nullptr, false, (if decide (this = r) then nullptr else m),
      (<[this:=p]> (<[r:=nullptr]> (handles w))).
    split; [by rewrite hooks_release_only; apply assign_move_conv_run|].
    split.
    + case_decide; [congruence|]. intros ->. by eapply holders_lookup.
    + holders_arith P.
  - (* OpReset *)
    destruct (handles w !! this) as [m|] eqn:Ht.
    2: { unfold reset, load in Hrun. by rewrite bind_unfold, Ht in Hrun. }
    exists nullptr, false, m, (<[this:=nullptr]> (handles w)).
    split; [by rewrite hooks_release_only; apply reset_run|].
    split; [intros ->; by eapply holders_lookup|]. holders_arith P.
  - (* OpResetRaw *)
    destruct (handles w !! this) as [m|] eqn:Ht.
    2: { unfold reset_raw in Hrun. by rewrite temp_swap_dead in Hrun. }
    exists p, true, m, (<[this:=p]> (handles w)).
    split; [by apply reset_raw_run|].
    split; [intros ->; by eapply holders_lookup|]. holders_arith P.
  - (* OpResetRawFlag *)
    destruct (handles w !! this) as [m|] eqn:Ht.
    2: { unfold reset_raw_flag in Hrun. by rewrite temp_swap_dead in Hrun. }
    exists p, add_ref, m, (<[this:=p]> (handles w)).
    split; [by apply reset_raw_flag_run|].
    split; [intros ->; by eapply holders_lookup|].
    destruct add_ref; holders_arith P.
  - (* OpDetach *)
    destruct (handles w !! this) as [m|] eqn:Ht.
    2: { unfold detach, load in Hrun. by rewrite !bind_unfold, Ht in Hrun. }
    exists nullptr, false, nullptr, (<[this:=nullptr]> (handles w)).
    split; [by rewrite hooks_nothing, bind_unfold, (detach_run _ _ m)|].
    split; [congruence|]. holders_arith P.
  - (* OpSwap *)
    destruct (handles w !! a) as [x|] eqn:Ha.
    2: { unfold swap, load in Hrun. by rewrite bind_unfold, Ha in Hrun. }
    destruct (handles w !! b) as [y|] eqn:Hb.
    2: { unfold swap, load in Hrun.
         by rewrite bind_unfold, Ha, bind_unfold, Hb in Hrun. }
    exists nullptr, false, nullptr, (<[b:=x]> (<[a:=y]> (handles w))).
    split; [by rewrite hooks_nothing; apply swap_run|].
    split; [congruence|]. holders_arith P.
Qed.


Lemma exec_owned_step P o w g w' g' :
  P ≠ nullptr → account P w g →
  exec_owned P o (w, g) = Some (w', g') →
  exec o w = Some (tt, w') ∧ account P w' g' ∧
  dels P (trace w')
  = dels P (trace w)
    + (if decide (0 < owners P w g ∧ owners P w' g' = 0) then 1 else 0).
Proof.
  intros HP Hacc. unfold exec_owned.
  case_decide as Hg; [|done].
  destruct (exec o w) as [[[] w1]|] eqn:Hrun; [|done].
  case_decide as Hb; [|done]. intros [= <- <-].
  split; [done|].
  destruct (exec_shape P o w w1 g HP Hrun Hg) as (p & b & m & hs' & Hsh & Hm & Hown).
  rewrite Hsh in Hrun.
  assert (handles w1 = hs') as Hh1.
  { apply hook_only_handles in Hrun; [done|auto with hooks]. }
  assert (owners P w1 (g - adopts P o + yields P o w)
          = owners P w g + (if b then ind P p else 0) - ind P m) as Hn.
  { unfold owners. by rewrite Hh1. }
  apply (hooks_ledger P _ _ _ _ _ (owners P w g)) in Hrun as (_ & Hl & Hd);
    cbn [heap trace set_handles handles] in *; try done.
  - unfold account. by rewrite Hn.
  - intros ->. unfold owners. specialize (Hm eq_refl). lia.
  - by rewrite <- Hn.
Qed.

(** ** Runs of disciplined clients *)

Lemma exec_owned_exec P o w g w' g' :
  exec_owned P o (w, g) = Some (w', g') → exec o w = Some (tt, w').
Proof.
  unfold exec_owned. case_decide; [|done].
  destruct (exec o w) as [[[] w1]|]; [|done].
  case_decide; [|done]. by intros [= <- <-].
Qed.

Lemma run_owned_app P os1 os2 s :
  run_owned P (os1 ++ os2) s
  = match run_owned P os1 s with
    | Some s' => run_owned P os2 s'
    | None => None
    end.
Proof.
  revert s. induction os1 as [|o os1 IH]; intros s; cbn [run_owned app]; [done|].
  destruct (exec_owned P o s); [apply IH|done].
Qed.

Lemma run_owned_run P os w g w' g' :
  run_owned P os (w, g) = Some (w', g') → run os w = Some (tt, w').
Proof.
  revert w g. induction os as [|o os IH]; intros w g; cbn [run_owned run].
  - by intros [= <- <-].
  - destruct (exec_owned P o (w, g)) as [[w1 g1]|] eqn:E; [|done].
    intros Hrest. rewrite bind_unfold, (exec_owned_exec _ _ _ _ _ _ E).
    by eapply IH.
Qed.

Lemma run_owned_account P os w g w' g' :
  P ≠ nullptr → account P w g →
  run_owned P os (w, g) = Some (w', g') → account P w' g'.
Proof.
  intros HP. revert w g. induction os as [|o os IH]; intros w g Hacc; cbn [run_owned].
  - by intros [= <- <-].
  - destruct (exec_owned P o (w, g)) as [[w1 g1]|] eqn:E; [|done].
    apply (IH w1 g1). by apply (exec_owned_step P o w g w1 g1).
Qed.

(** * The claims *)

(** C1 (amended).  Take a client that runs any finite sequence of handle
    operations (construction with or without the initial increment, copy,
    move, every assignment, reset, detach, swap, destruction) and that
    respects the discipline of [exec_owned]: a construction that skips the
    increment takes over a counted raw reference the client holds, and the
    number of owning references stays below 2^32.  Started from a world
    whose books for pointee [P] are in order, after every prefix
    [pre ++ [o]] of the run: the operation [o] deletes [P] exactly when it
    brings the number of live owning references from a positive value to
    zero; [P] has been deleted at most once, and once iff it is no longer
    alive; increments minus decrements equal the number of owning
    references (so they are equal when the last owner is gone); and while
    [P] is alive its counter is the number of owning references. *)
Theorem C1_destroyed_exactly_when_last_owner_leaves
  (P : N) (pre : list op) (o : op) (w0 : world) (g0 : nat) (w' : world) (g' : nat) :
  P ≠ nullptr →
  account P w0 g0 →
  run_owned P (pre ++ [o]) (w0, g0) = Some (w', g') →
  ∃ w g,
    run_owned P pre (w0, g0) = Some (w, g) ∧
    exec o w = Some (tt, w') ∧
    run (pre ++ [o]) w0 = Some (tt, w') ∧
    (dels P (trace w') = dels P (trace w) + 1
       ↔ 0 < owners P w g ∧ owners P w' g' = 0) ∧
    (dels P (trace w') = dels P (trace w)
       ↔ ¬ (0 < owners P w g ∧ owners P w' g' = 0)) ∧
    dels P (trace w') ≤ 1 ∧
    (dels P (trace w') = 1 ↔ heap w' !! P = None) ∧
    (heap w' !! P = None → owners P w' g' = 0) ∧
    adds P (trace w') - rels P (trace w') = owners P w' g' ∧
    (owners P w' g' = 0 → adds P (trace w') = rels P (trace w')) ∧
    (∀ c, use_count P w' = Some (c, w') → c = owners P w' g').
Proof.
  intros HP Hacc Hrun. rewrite run_owned_app in Hrun.
  destruct (run_owned P pre (w0, g0)) as [[w g]|] eqn:Hpre; [|done].
  cbn [run_owned] in Hrun.
  destruct (exec_owned P o (w, g)) as [[w1 g1]|] eqn:Hstep; [|done].
  injection Hrun as -> ->.
  pose proof (run_owned_account _ _ _ _ _ _ HP Hacc Hpre) as Hacc1.
  destruct (exec_owned_step _ _ _ _ _ _ HP Hacc1 Hstep) as (Hexec & Hacc2 & Hdel).
  exists w, g. split; [done|]. split; [done|].
  split.
  { apply (run_owned_run P _ _ g0 _ g'). rewrite run_owned_app, Hpre.
    cbn [run_owned]. by rewrite Hstep. }
  destruct Hacc2 as (Hrange & Hbal & Hcnt).
  split; [|split].
  { rewrite Hdel. case_decide; [split; [done|lia]|]. split; [lia|done]. }
  { rewrite Hdel. case_decide; [|split; [done|lia]]. split; [lia|done]. }
  unfold use_count.
  destruct (heap w' !! P) as [c|] eqn:Hc.
  - destruct Hcnt as [-> Hd0]. rewrite Hd0.
    repeat split; try done; try lia. by intros ? [= ->].
  - destruct Hcnt as [Hz Hd1]. rewrite Hd1.
    repeat split; try done; try lia.
Qed.

(** A run of the theorem above: wrap the pointee in handle 0, copy it to
    handle 1, destroy handle 0, move handle 1 into handle 2, destroy
    handle 2.  The last operation deletes the pointee. *)
Lemma C1_witness :
  let pre := [OpCtorRaw 0 1 true; OpCtorCopy 1 0; OpDtor 0; OpCtorMove 2 1] in
  let o := OpDtor 2 in
  let w' := World ∅ {[ 1%nat := nullptr ]}
              [EvAddRef 1; EvAddRef 1; EvRelease 1; EvRelease 1; EvDelete 1] in
  (1%N ≠ nullptr ∧
   account 1 fresh_world 0 ∧
   run_owned 1 (pre ++ [o]) (fresh_world, 0%nat) = Some (w', 0%nat)) ∧
  ∃ w g,
    run_owned 1 pre (fresh_world, 0%nat) = Some (w, g) ∧
    exec o w = Some (tt, w') ∧
    run (pre ++ [o]) fresh_world = Some (tt, w') ∧
    (dels 1 (trace w') = dels 1 (trace w) + 1
       ↔ 0 < owners 1 w g ∧ owners 1 w' 0 = 0) ∧
    (dels 1 (trace w') = dels 1 (trace w)
       ↔ ¬ (0 < owners 1 w g ∧ owners 1 w' 0 = 0)) ∧
    dels 1 (trace w') ≤ 1 ∧
    (dels 1 (trace w') = 1 ↔ heap w' !! 1%N = None) ∧
    (heap w' !! 1%N = None → owners 1 w' 0 = 0) ∧
    adds 1 (trace w') - rels 1 (trace w') = owners 1 w' 0 ∧
    (owners 1 w' 0 = 0 → adds 1 (trace w') = rels 1 (trace w')) ∧
    (∀ c, use_count 1 w' = Some (c, w') → c = owners 1 w' 0).
Proof.
  intros pre o w'.
  assert (1%N ≠ nullptr) as HP by done.
  assert (account 1 fresh_world 0) as Hacc.
  { unfold account, ledger. vm_compute. intuition discriminate. }
  split; [split; [done|split; [done|reflexivity]]|].
  apply (C1_destroyed_exactly_when_last_owner_leaves 1 pre o fresh_world 0 w' 0
           HP Hacc eq_refl).
Defined.

(** C1 as stated fails on clients that construct a handle without the
    initial increment although nobody holds a counted reference.  First
    run: the only handle is destroyed, yet the pointee is still alive with
    counter 2^32 - 1, nothing was deleted, and there are 0 increments for 1
    decrement.  Second run: the pointee is deleted while handle 1 still
    holds it. *)
Lemma C1_counterexample :
  (run [OpCtorRaw 0 1 false; OpDtor 0] fresh_world
   = Some (tt, World {[ 1%N := 4294967295 ]} ∅ [EvRelease 1]) ∧
   holders 1 (∅ : gmap nat N) = 0 ∧
   dels 1 [EvRelease 1] = 0 ∧
   adds 1 [EvRelease 1] ≠ rels 1 [EvRelease 1]) ∧
  (run [OpCtorRaw 0 1 true; OpCtorRaw 1 1 false; OpDtor 0] fresh_world
   = Some (tt, World ∅ {[ 1%nat := 1%N ]}
                 [EvAddRef 1; EvRelease 1; EvDelete 1]) ∧
   holders 1 ({[ 1%nat := 1%N ]} : gmap nat N) = 1).
Proof. repeat split; try reflexivity. vm_compute. discriminate. Qed.

(** C2.  Copy-assigning or move-assigning a handle from a handle holding
    the same pointer (in particular from itself) leaves the whole world
    unchanged: no counter changes and no hook is called, so the trace
    shows no decrement, whatever the pointee's count is. *)
Theorem C2_self_assignment_is_noop (w : world) (this r : nat) (p : N) :
  handles w !! this = Some p →
  handles w !! r = Some p →
  assign_copy this r w = Some (tt, w) ∧
  assign_move this r w = Some (tt, w).
Proof.
  intros Ht Hr. split.
  - by apply (assign_copy_same _ _ _ p).
  - by apply (assign_move_same _ _ _ p).
Qed.

(** The sole owner of a pointee with count 1 assigned to itself. *)
Lemma C2_witness :
  handles (sole_world 1) !! 0%nat = Some 1%N ∧
  assign_copy 0 0 (sole_world 1) = Some (tt, sole_world 1) ∧
  assign_move 0 0 (sole_world 1) = Some (tt, sole_world 1).
Proof.
  split; [reflexivity|].
  apply (C2_self_assignment_is_noop (sole_world 1) 0 0 1); reflexivity.
Defined.

(** ** Moves *)

Lemma release_if_null w : release_if nullptr w = Some (tt, w).
Proof. done. Qed.

Lemma release_if_nonnull m w :
  m ≠ nullptr → release_if m w = intrusive_ptr_release m w.
Proof.
  intros H. unfold release_if, when, is_null.
  by rewrite bool_decide_eq_false_2.
Qed.

Lemma add_ref_if_nonnull p w :
  p ≠ nullptr → add_ref_if p true w = intrusive_ptr_add_ref p w.
Proof.
  intros H. unfold add_ref_if, when, is_null.
  by rewrite bool_decide_eq_false_2.
Qed.

(** Releasing a null or live pointer is defined. *)
Lemma release_if_defined m w :
  m = nullptr ∨ is_Some (heap w !! m) → is_Some (release_if m w).
Proof.
  intros Hm. destruct (decide (m = nullptr)) as [->|Hne]; [by eexists|].
  destruct Hm as [?|[c Hc]]; [done|].
  rewrite release_if_nonnull by done. unfold intrusive_ptr_release.
  rewrite decide_False by done. rewrite Hc. cbn. by case_match.
Qed.

(** Releasing [m] does not concern any other pointer [p]. *)
Lemma release_if_other p m w w' :
  release_if m w = Some (tt, w') → m ≠ p →
  handles w' = handles w ∧ heap w' !! p = heap w !! p ∧
  adds p (trace w') = adds p (trace w) ∧ rels p (trace w') = rels p (trace w).
Proof.
  intros Hrun Hne. destruct (decide (m = nullptr)) as [->|Hm].
  - by injection Hrun as <-.
  - rewrite release_if_nonnull in Hrun by done.
    destruct (release_ledger p _ _ _ Hrun) as (Hh & Ha & Hr & Hc).
    rewrite decide_False in Hc by done. unfold ind in Hr.
    rewrite decide_False in Hr by done. destruct Hc as [Hc _].
    repeat split; try done. lia.
Qed.

(** C3 (amended).  Let the source [r] hold [p].
    - Move construction and converting move construction change neither
      heap nor trace (no counter is touched, no hook is called); the new
      handle holds [p] and the source is empty.
    - Same-type move assignment to a target holding the same pointer does
      nothing at all: the source is not emptied.
    - Move assignment (same-type or converting) to a target holding another
      pointer [m] that is null or alive succeeds; afterwards the target
      holds [p], the source is empty, the counter of [p] is unchanged and no
      hook was called on [p]; what happens besides is exactly the release
      of [m] by the temporary's destructor.
    - Converting move assignment has no pointer comparison: from another
      handle holding the same non-null pointer it empties the source and
      releases [p] once. *)
Theorem C3_move_transfers_the_reference (w : world) (this r : nat) (p : N) :
  handles w !! r = Some p →
  (handles w !! this = None →
     ctor_move this r w
     = Some (tt, World (heap w) (<[r:=nullptr]> (<[this:=p]> (handles w))) (trace w)) ∧
     ctor_move_conv this r w
     = Some (tt, World (heap w) (<[r:=nullptr]> (<[this:=p]> (handles w))) (trace w))) ∧
  (handles w !! this = Some p → assign_move this r w = Some (tt, w)) ∧
  (∀ m, handles w !! this = Some m → p ≠ m →
     m = nullptr ∨ is_Some (heap w !! m) →
     ∃ w',
       assign_move this r w = Some (tt, w') ∧
       assign_move_conv this r w = Some (tt, w') ∧
       handles w' = <[this:=p]> (<[r:=nullptr]> (handles w)) ∧
       heap w' !! p = heap w !! p ∧
       adds p (trace w') = adds p (trace w) ∧
       rels p (trace w') = rels p (trace w) ∧
       release_if m (World (heap w) (handles w') (trace w)) = Some (tt, w')) ∧
  (handles w !! this = Some p → this ≠ r → p ≠ nullptr →
     assign_move_conv this r w
     = intrusive_ptr_release p
         (World (heap w) (<[r:=nullptr]> (handles w)) (trace w))).
Proof.
  intros Hr. split; [|split; [|split]].
  - intros Ht. split.
    + by apply ctor_move_run.
    + by apply ctor_move_conv_run.
  - intros Ht. by apply (assign_move_same _ _ _ p).
  - intros m Ht Hne Hm.
    assert (this ≠ r) as Hthis by congruence.
    destruct (release_if_defined m
                (set_handles (<[this:=p]> (<[r:=nullptr]> (handles w))) w))
      as [[[] w'] Hw']; [done|].
    exists w'.
    pose proof (release_if_other p _ _ _ Hw' (not_eq_sym Hne))
      as (Hh & Hc & Ha & Hrl).
    cbn [handles heap trace set_handles] in *.
    rewrite (assign_move_run _ _ _ p m), (assign_move_conv_run _ _ _ p m) by done.
    rewrite decide_False by done. rewrite Hh. by repeat split.
  - intros Ht Hne Hp.
    rewrite (assign_move_conv_run _ _ _ p p) by done.
    rewrite decide_False by done. rewrite release_if_nonnull by done.
    f_equal. unfold set_handles. f_equal. apply insert_id.
    by rewrite lookup_insert_ne.
Qed.

(** Handle 1 (pointee 2) is moved into a fresh handle 2 and into handle 0
    (pointee 1, which is released and deleted). *)
Lemma C3_witness :
  handles two_world !! 1%nat = Some 2%N ∧
  ctor_move 2 1 two_world
  = Some (tt, World {[ 1%N := 1; 2%N := 1 ]}
                {[ 0%nat := 1%N; 1%nat := nullptr; 2%nat := 2%N ]} []) ∧
  ∃ w',
    assign_move 0 1 two_world = Some (tt, w') ∧
    assign_move_conv 0 1 two_world = Some (tt, w') ∧
    handles w' = <[0%nat:=2%N]> (<[1%nat:=nullptr]> (handles two_world)) ∧
    heap w' !! 2%N = heap two_world !! 2%N ∧
    adds 2 (trace w') = adds 2 (trace two_world) ∧
    rels 2 (trace w') = rels 2 (trace two_world) ∧
    release_if 1 (World (heap two_world) (handles w') (trace two_world))
    = Some (tt, w').
Proof.
  pose proof (C3_move_transfers_the_reference two_world 0 1 2 eq_refl)
    as (_ & _ & Hassign & _).
  pose proof (C3_move_transfers_the_reference two_world 2 1 2 eq_refl)
    as (Hctor & _).
  split; [reflexivity|]. split.
  - destruct (Hctor eq_refl) as [-> _]. reflexivity.
  - apply (Hassign 1%N eq_refl).
    + discriminate.
    + right. exists 1. reflexivity.
Defined.

(** C3 as stated fails twice.  Same-type move assignment between two
    handles of the same pointee leaves the source non-empty; converting
    move assignment between them empties the source but decrements the
    pointee's counter from 2 to 1. *)
Lemma C3_counterexample :
  assign_move 0 1 shared_world = Some (tt, shared_world) ∧
  handles shared_world !! 1%nat = Some 1%N ∧
  1%N ≠ nullptr ∧
  assign_move_conv 0 1 shared_world
  = Some (tt, World {[ 1%N := 1 ]} {[ 0%nat := 1%N; 1%nat := nullptr ]}
                [EvRelease 1]).
Proof. repeat split; reflexivity || discriminate. Qed.

(** C4.  [detach] on a non-empty handle returns the stored pointer and
    empties the handle while heap and trace stay as they are (no decrement,
    no hook call).  Wrapping the returned pointer again with the
    no-increment construction, in a new handle or by [reset(p, false)] on
    the same handle, leaves heap and trace unchanged as well, so
    [use_count()] reads the same before and after; the second form
    restores the whole world. *)
Theorem C4_detach_and_adopt (w : world) (this h : nat) (p : N) (c : Z) :
  handles w !! this = Some p →
  p ≠ nullptr →
  heap w !! p = Some c →
  handles w !! h = None →
  detach this w
  = Some (p, World (heap w) (<[this:=nullptr]> (handles w)) (trace w)) ∧
  (q ← detach this; ctor_raw h q false) w
  = Some (tt, World (heap w) (<[h:=p]> (<[this:=nullptr]> (handles w))) (trace w)) ∧
  (q ← detach this; ctor_raw h q false;; use_count p) w
  = Some (c, World (heap w) (<[h:=p]> (<[this:=nullptr]> (handles w))) (trace w)) ∧
  use_count p w = Some (c, w) ∧
  (q ← detach this; reset_raw_flag this q false) w = Some (tt, w).
Proof.
  intros Ht Hp Hc Hh.
  assert (detach this w
          = Some (p, set_handles (<[this:=nullptr]> (handles w)) w)) as Hd
    by (by apply detach_run).
  assert (h ≠ this) as Hne by congruence.
  assert (ctor_raw h p false (set_handles (<[this:=nullptr]> (handles w)) w)
          = Some (tt, World (heap w) (<[h:=p]> (<[this:=nullptr]> (handles w)))
                        (trace w))) as Hctor.
  { rewrite ctor_raw_run by (cbn; by rewrite lookup_insert_ne).
    unfold add_ref_if. by rewrite andb_false_r. }
  split; [done|]. split; [by rewrite bind_unfold, Hd|].
  split; [|split].
  - rewrite bind_unfold, Hd, bind_unfold, Hctor. unfold use_count. cbn.
    by rewrite Hc.
  - unfold use_count. by rewrite Hc.
  - rewrite bind_unfold, Hd.
    rewrite (reset_raw_flag_run _ _ _ _ nullptr)
      by (cbn; by rewrite lookup_insert_eq).
    unfold add_ref_if. rewrite andb_false_r. cbn.
    unfold mret, M_ret, ret, set_handles. cbn.
    rewrite insert_insert_eq, insert_id by done. by destruct w.
Qed.

(** The sole owner of a pointee with count 1 detaches; handle 1 adopts. *)
Lemma C4_witness :
  (handles (sole_world 1) !! 0%nat = Some 1%N ∧ 1%N ≠ nullptr ∧
   heap (sole_world 1) !! 1%N = Some 1 ∧
   handles (sole_world 1) !! 1%nat = None) ∧
  detach 0 (sole_world 1)
  = Some (1%N, World {[ 1%N := 1 ]} {[ 0%nat := nullptr ]} []) ∧
  (q ← detach 0; ctor_raw 1 q false;; use_count 1) (sole_world 1)
  = Some (1, World {[ 1%N := 1 ]} {[ 0%nat := nullptr; 1%nat := 1%N ]} []).
Proof.
  assert (1%N ≠ nullptr) as HP by done.
  split; [by repeat split|].
  destruct (C4_detach_and_adopt (sole_world 1) 0 1 1 1 eq_refl HP eq_refl eq_refl)
    as (Hd & _ & Hu & _).
  split.
  - rewrite Hd. reflexivity.
  - rewrite Hu. reflexivity.
Defined.

(** C5.  In every world and for every new handle, construction from a
    null raw pointer (with either flag) succeeds, yields an empty handle
    and leaves heap and trace unchanged: no hook is called; so does copy
    construction (same-type or converting) from an empty handle.
    Assigning a null raw pointer to any live handle, by [h = nullptr] or
    [reset(nullptr)], is exactly [reset()]: the release of the target's
    previous pointee with the target left empty.  It succeeds whenever
    that pointee is null or alive, calls no increment and no hook on the
    null pointer, and changes nothing at all when the target was empty;
    copy assignment from an empty handle has the same outcome. *)
Theorem C5_null_is_legal (w : world) (h this r : nat) (m : N) :
  (handles w !! h = None →
   ∀ b, ctor_raw h nullptr b w
        = Some (tt, World (heap w) (<[h:=nullptr]> (handles w)) (trace w))) ∧
  (handles w !! h = None → handles w !! r = Some nullptr →
   ctor_copy h r w
   = Some (tt, World (heap w) (<[h:=nullptr]> (handles w)) (trace w)) ∧
   ctor_copy_conv h r w
   = Some (tt, World (heap w) (<[h:=nullptr]> (handles w)) (trace w))) ∧
  (handles w !! this = Some m →
   assign_raw this nullptr w
   = release_if m (World (heap w) (<[this:=nullptr]> (handles w)) (trace w)) ∧
   assign_raw this nullptr w = reset this w ∧
   reset_raw this nullptr w = reset this w) ∧
  (handles w !! this = Some m → m = nullptr ∨ is_Some (heap w !! m) →
   ∃ w',
     assign_raw this nullptr w = Some (tt, w') ∧
     reset_raw this nullptr w = Some (tt, w') ∧
     handles w' = <[this:=nullptr]> (handles w) ∧
     (∀ q, adds q (trace w') = adds q (trace w)) ∧
     rels nullptr (trace w') = rels nullptr (trace w) ∧
     (m = nullptr → w' = w) ∧
     (handles w !! r = Some nullptr →
      assign_copy this r w = Some (tt, w') ∧
      assign_copy_conv this r w = Some (tt, w'))).
Proof.
  split; [|split; [|split]].
  - intros Hh b. by rewrite ctor_raw_run.
  - intros Hh Hr. split.
    + by rewrite (ctor_copy_run _ _ _ nullptr).
    + by rewrite ctor_copy_conv_run, (ctor_copy_run _ _ _ nullptr).
  - intros Ht.
    rewrite (assign_raw_run _ _ _ m), (reset_raw_run _ _ _ m),
      (reset_run _ _ m) by done.
    done.
  - intros Ht Hm.
    destruct (release_if_defined m
                (set_handles (<[this:=nullptr]> (handles w)) w))
      as [[[] w'] Hw']; [done|].
    assert (handles w' = <[this:=nullptr]> (handles w)) as Hh'.
    { apply hook_only_handles in Hw'; [done|auto with hooks]. }
    assert (m = nullptr → w' = w) as Hempty.
    { intros ->. injection Hw' as <-. unfold set_handles.
      rewrite insert_id by done. by destruct w. }
    exists w'.
    rewrite (assign_raw_run _ _ _ m), (reset_raw_run _ _ _ m) by done.
    repeat split; try done.
    + intros q. destruct (decide (m = nullptr)) as [->|Hne].
      * by injection Hw' as <-.
      * rewrite release_if_nonnull in Hw' by done.
        by destruct (release_ledger q _ _ _ Hw') as (_ & -> & _).
    + destruct (decide (m = nullptr)) as [->|Hne].
      * by injection Hw' as <-.
      * by destruct (release_if_other nullptr _ _ _ Hw' Hne)
          as (_ & _ & _ & ->).
    + destruct (decide (nullptr = m)) as [<-|Hne].
      * rewrite (assign_copy_same _ _ _ nullptr) by done.
        by rewrite Hempty.
      * by rewrite (assign_copy_run _ _ _ nullptr m).
    + by rewrite (assign_copy_conv_run _ _ _ nullptr m).
Qed.

(** The sole owner of a pointee with count 1, in a world without any empty
    handle: handle 1 is constructed from null, and [h = nullptr] on the
    owner releases and deletes the pointee. *)
Lemma C5_witness :
  (handles (sole_world 1) !! 1%nat = None ∧
   handles (sole_world 1) !! 0%nat = Some 1%N ∧
   (1%N = nullptr ∨ is_Some (heap (sole_world 1) !! 1%N))) ∧
  ctor_raw 1 nullptr true (sole_world 1)
  = Some (tt, World {[ 1%N := 1 ]} {[ 0%nat := 1%N; 1%nat := nullptr ]} []) ∧
  assign_raw 0 nullptr (sole_world 1)
  = Some (tt, World ∅ {[ 0%nat := nullptr ]} [EvRelease 1; EvDelete 1]) ∧
  ∃ w', assign_raw 0 nullptr (sole_world 1) = Some (tt, w') ∧
        reset_raw 0 nullptr (sole_world 1) = Some (tt, w') ∧
        handles w' = <[0%nat:=nullptr]> (handles (sole_world 1)) ∧
        ∀ q, adds q (trace w') = adds q (trace (sole_world 1)).
Proof.
  assert (1%N = nullptr ∨ is_Some (heap (sole_world 1) !! 1%N)) as Hm
    by (right; exists 1; reflexivity).
  destruct (C5_null_is_legal (sole_world 1) 1 0 0 1)
    as (Hraw & _ & Hshape & Hassign).
  destruct (Hshape eq_refl) as (Hrel & _ & _).
  destruct (Hassign eq_refl Hm) as (w' & Hw' & Hreset & Hh & Hadds & _).
  split; [by repeat split|]. split; [|split].
  - rewrite (Hraw eq_refl true). reflexivity.
  - rewrite Hrel. reflexivity.
  - exists w'. by repeat split.
Defined.

(** C6.  A default-constructed and a copy-constructed counter base start
    at 0 whatever the source's count is, and copy assignment leaves the
    target's count as it was.  On pointees in the heap: [new Derived( *src )]
    creates a pointee with count 0 and leaves the source's count alone, and
    [*dst = *src] changes nothing. *)
Theorem C6_counts_are_never_copied
  (w : world) (a src dst : N) (cs cd : Z) (this other : intrusive_ref_counter.t) :
  a ≠ nullptr →
  heap w !! a = None →
  heap w !! src = Some cs →
  heap w !! dst = Some cd →
  intrusive_ref_counter.use_count intrusive_ref_counter.ctor_default = 0 ∧
  intrusive_ref_counter.use_count (intrusive_ref_counter.ctor_copy other) = 0 ∧
  intrusive_ref_counter.use_count (intrusive_ref_counter.assign this other)
  = intrusive_ref_counter.use_count this ∧
  (new_default a;; use_count a) w
  = Some (0, World (<[a:=0]> (heap w)) (handles w) (trace w)) ∧
  (new_copy a src;; use_count a) w
  = Some (0, World (<[a:=0]> (heap w)) (handles w) (trace w)) ∧
  (new_copy a src;; use_count src) w
  = Some (cs, World (<[a:=0]> (heap w)) (handles w) (trace w)) ∧
  assign_object dst src w = Some (tt, w).
Proof.
  intros Ha Hfree Hsrc Hdst.
  assert (a ≠ src) as Hne by congruence.
  split; [done|]. split; [done|]. split; [done|].
  unfold new_default, new_copy, assign_object, object, place, overwrite, use_count.
  rewrite !bind_unfold. cbn. rewrite ?Hsrc, ?Hdst, ?Hfree. cbn.
  rewrite !decide_False by done. rewrite ?Hfree. cbn.
  rewrite lookup_insert_eq, lookup_insert_ne, Hsrc by done.
  repeat split. unfold_monad. cbn. rewrite Hsrc. cbn.
  rewrite insert_id by done. by destruct w.
Qed.

(** A pointee with count 2 at address 1 is copied to address 2 and
    assigned to itself. *)
Lemma C6_witness :
  (2%N ≠ nullptr ∧ heap shared_world !! 2%N = None ∧
   heap shared_world !! 1%N = Some 2) ∧
  intrusive_ref_counter.use_count
    (intrusive_ref_counter.ctor_copy (intrusive_ref_counter.Make 2)) = 0 ∧
  (new_copy 2 1;; use_count 2) shared_world
  = Some (0, World {[ 1%N := 2; 2%N := 0 ]} (handles shared_world) []) ∧
  (new_copy 2 1;; use_count 1) shared_world
  = Some (2, World {[ 1%N := 2; 2%N := 0 ]} (handles shared_world) []) ∧
  assign_object 1 1 shared_world = Some (tt, shared_world).
Proof.
  assert (2%N ≠ nullptr) as Ha by done.
  destruct (C6_counts_are_never_copied shared_world 2 1 1 2 2
              (intrusive_ref_counter.Make 2) (intrusive_ref_counter.Make 2)
              Ha eq_refl eq_refl eq_refl)
    as (_ & Hc & _ & _ & Hn & Hs & Has).
  split; [by repeat split|]. split; [exact Hc|].
  split; [rewrite Hn; reflexivity|]. split; [rewrite Hs; reflexivity|exact Has].
Defined.

(** C7.  On a live handle, [reset(p, b)] and the statement
    [h = intrusive_ptr(p, b)] are the same computation: same final world
    (handles, counters of the old and of the new pointee, trace of hook
    calls), and undefined in the same worlds.  [reset(p)] is the case
    [b = true] and coincides with the raw-pointer assignment [h = p]. *)
Theorem C7_reset_is_assignment_of_a_fresh_handle
  (w : world) (this : nat) (m p : N) (b : bool) :
  handles w !! this = Some m →
  reset_raw_flag this p b w = assign_fresh this p b w ∧
  reset_raw this p w = assign_fresh this p true w ∧
  reset_raw this p w = assign_raw this p w ∧
  reset_raw_flag this p b w
  = (add_ref_if p b;; release_if m)
      (World (heap w) (<[this:=p]> (handles w)) (trace w)).
Proof.
  intros Ht.
  assert (∀ b', reset_raw_flag this p b' w = assign_fresh this p b' w) as Heq.
  { clear b. intros b. rewrite (reset_raw_flag_run _ _ _ _ m) by done.
    pose proof (temporary_fresh (handles w)) as Hf.
    set (tmp := fresh (dom (handles w))) in *.
    assert (tmp ≠ this) as Hne by congruence.
    change (assign_fresh this p b w)
      with ((ctor_raw tmp p b;; assign_move this tmp;; dtor tmp) w).
    rewrite (bind_unfold (add_ref_if p b)), (bind_unfold (ctor_raw tmp p b)).
    rewrite ctor_raw_run, !hook_only_add_ref_if by done.
    destruct (add_ref_if p b w) as [[[] w1]|] eqn:E1; cbn [rehandle]; [|done].
    assert (handles w1 = handles w) as Hh1
      by (apply hook_only_handles in E1; [done|auto with hooks]).
    rewrite (bind_unfold (assign_move this tmp)).
    destruct (decide (p = m)) as [->|Hpm].
    - rewrite (assign_move_same _ _ _ m);
        [|cbn; by rewrite lookup_insert_eq|cbn; by rewrite lookup_insert_ne].
      rewrite (dtor_run _ _ m) by (cbn; by rewrite lookup_insert_eq).
      cbn [handles set_handles heap trace].
      rewrite delete_insert_id, insert_id by done.
      done.
    - rewrite (assign_move_run _ _ _ p m);
        [|cbn; by rewrite lookup_insert_eq|cbn; by rewrite lookup_insert_ne|done].
      cbn [handles set_handles heap trace].
      change (World (heap w1)
                (<[this:=p]> (<[tmp:=nullptr]> (<[tmp:=p]> (handles w)))) (trace w1))
        with (set_handles
                (<[this:=p]> (<[tmp:=nullptr]> (<[tmp:=p]> (handles w)))) w1).
      change (World (heap w1) (<[this:=p]> (handles w)) (trace w1))
        with (set_handles (<[this:=p]> (handles w)) w1).
      rewrite !hook_only_release_if.
      destruct (release_if m w1) as [[[] w2]|] eqn:E2; cbn [rehandle]; [|done].
      rewrite (dtor_run _ _ nullptr)
        by (cbn; rewrite lookup_insert_ne, lookup_insert_eq; done).
      cbn [handles set_handles heap trace]. rewrite release_if_null.
      do 2 f_equal. unfold set_handles. cbn. f_equal. map_ext. }
  split; [apply Heq|]. split; [apply Heq|]. split; [done|].
  by rewrite (reset_raw_flag_run _ _ _ _ m).
Qed.

(** Handle 0 (pointee 1) is reset to pointee 2. *)
Lemma C7_witness :
  handles two_world !! 0%nat = Some 1%N ∧
  reset_raw_flag 0 2 true two_world = assign_fresh 0 2 true two_world ∧
  reset_raw 0 2 two_world = assign_raw 0 2 two_world.
Proof.
  split; [reflexivity|].
  destruct (C7_reset_is_assignment_of_a_fresh_handle two_world 0 1 2 true eq_refl)
    as (H1 & _ & H3 & _).
  by split.
Defined.

(** C8.  Every comparison returns without changing the world, and its
    result is decided by the two raw pointers alone: the three forms of
    [==] hold iff the pointers are equal, each [!=] is the negation of the
    matching [==], and [<] is the strict order of the addresses.  Hence
    equality is reflexive and symmetric, two empty handles are equal, a
    handle equals a raw pointer iff [get()] returns that pointer, and [<]
    is irreflexive, transitive and total on distinct pointers. *)
Theorem C8_comparisons_are_pointer_identity
  (w : world) (a b c : nat) (x y z q : N) :
  handles w !! a = Some x →
  handles w !! b = Some y →
  handles w !! c = Some z →
  eq_hh a b w = Some (bool_decide (x = y), w) ∧
  ne_hh a b w = Some (negb (bool_decide (x = y)), w) ∧
  eq_hp a q w = Some (bool_decide (x = q), w) ∧
  ne_hp a q w = Some (negb (bool_decide (x = q)), w) ∧
  eq_ph q a w = Some (bool_decide (q = x), w) ∧
  ne_ph q a w = Some (negb (bool_decide (q = x)), w) ∧
  lt_hh a b w = Some ((x <? y)%N, w) ∧
  eq_hh a a w = Some (true, w) ∧
  eq_hh b a w = eq_hh a b w ∧
  eq_ph q a w = eq_hp a q w ∧
  (x = nullptr → y = nullptr → eq_hh a b w = Some (true, w)) ∧
  (eq_hp a q w = Some (true, w) ↔ get a w = Some (q, w)) ∧
  lt_hh a a w = Some (false, w) ∧
  (lt_hh a b w = Some (true, w) → lt_hh b c w = Some (true, w) →
   lt_hh a c w = Some (true, w)) ∧
  (eq_hh a b w = Some (false, w) →
   lt_hh a b w = Some (true, w) ∨ lt_hh b a w = Some (true, w)).
Proof.
  intros Ha Hb Hc.
  unfold eq_hh, ne_hh, eq_hp, ne_hp, eq_ph, ne_ph, lt_hh, get, ptr_eqb.
  repeat (rewrite ?bind_unfold, ?(load_Some _ _ _ Ha), ?(load_Some _ _ _ Hb),
            ?(load_Some _ _ _ Hc)).
  unfold mret, M_ret, ret.
  repeat split.
  - by rewrite bool_decide_eq_true_2.
  - do 2 f_equal. apply bool_decide_ext. split; congruence.
  - do 2 f_equal. apply bool_decide_ext. split; congruence.
  - intros -> ->. by rewrite bool_decide_eq_true_2.
  - intros [= Heq%bool_decide_eq_true]. by subst.
  - intros [= ->]. by rewrite bool_decide_eq_true_2.
  - by rewrite N.ltb_irrefl.
  - intros [= Hxy%N.ltb_lt] [= Hyz%N.ltb_lt].
    replace (x <? z)%N with true; [done|]. symmetry. apply N.ltb_lt. lia.
  - intros [= Hne%bool_decide_eq_false].
    destruct (N.ltb_spec x y), (N.ltb_spec y x); auto.
    exfalso. apply Hne. lia.
Qed.

(** Handles 0 and 1 hold the pointees at addresses 1 and 2. *)
Lemma C8_witness :
  (handles two_world !! 0%nat = Some 1%N ∧
   handles two_world !! 1%nat = Some 2%N) ∧
  eq_hh 0 1 two_world = Some (false, two_world) ∧
  ne_hh 0 1 two_world = Some (true, two_world) ∧
  eq_hp 0 1 two_world = Some (true, two_world) ∧
  eq_ph 2 0 two_world = Some (false, two_world) ∧
  lt_hh 0 1 two_world = Some (true, two_world) ∧
  eq_hh 0 0 two_world = Some (true, two_world).
Proof.
  destruct (C8_comparisons_are_pointer_identity two_world 0 1 1 1 2 2 1
              eq_refl eq_refl eq_refl)
    as (H1 & H2 & H3 & _ & _ & _ & H7 & H8 & _).
  destruct (C8_comparisons_are_pointer_identity two_world 0 1 1 1 2 2 2
              eq_refl eq_refl eq_refl)
    as (_ & _ & _ & _ & H5 & _).
  split; [by split|]. by repeat split.
Defined.

(** ** Raw-pointer self-assignment and counter wrap-around *)

Lemma wrap32_succ_pred c :
  0 ≤ c < UINT_MODULUS → wrap32 (wrap32 (c + 1) - 1) = c.
Proof.
  unfold wrap32, UINT_MODULUS. intros Hc.
  destruct (decide (c + 1 = 4294967296)) as [Hmax|Hmax].
  - assert (c = 4294967295) as -> by lia. reflexivity.
  - rewrite (Z.mod_small (c + 1)) by lia. rewrite Z.mod_small; lia.
Qed.

(** C9 (amended).  Let handle [h] hold a live pointee [p] whose count [c]
    is at least 1.  The raw-pointer self-assignment [h = h.get()] is the
    increment of [p] followed by its decrement; it succeeds and leaves
    heap and handles as they were, so [use_count()] is unchanged and the
    pointee is alive; the trace gains the increment and then the decrement
    and no deletion.  Between the two hook calls the counter is
    [c + 1] modulo 2^32, which is not zero unless [c] is 2^32 - 1. *)
Theorem C9_raw_self_assignment_keeps_the_pointee
  (w : world) (h : nat) (p : N) (c : Z) :
  handles w !! h = Some p →
  p ≠ nullptr →
  heap w !! p = Some c →
  1 ≤ c < UINT_MODULUS →
  (q ← get h; assign_raw h q) w
  = (intrusive_ptr_add_ref p;; intrusive_ptr_release p) w ∧
  (q ← get h; assign_raw h q) w
  = Some (tt, World (heap w) (handles w)
                (trace w ++ [EvAddRef p; EvRelease p])) ∧
  (q ← get h; assign_raw h q;; use_count p) w
  = Some (c, World (heap w) (handles w)
               (trace w ++ [EvAddRef p; EvRelease p])) ∧
  (intrusive_ptr_add_ref p;; use_count p) w
  = Some (wrap32 (c + 1),
          World (<[p:=wrap32 (c + 1)]> (heap w)) (handles w)
            (trace w ++ [EvAddRef p])) ∧
  (c < UINT_MODULUS - 1 → wrap32 (c + 1) = c + 1).
Proof.
  intros Hh Hp Hc Hrange.
  assert (assign_raw h p w
          = (intrusive_ptr_add_ref p;; intrusive_ptr_release p) w) as Hshape.
  { rewrite (assign_raw_run _ _ _ p) by done.
    unfold set_handles. rewrite insert_id by done.
    rewrite !bind_unfold, add_ref_if_nonnull by done.
    replace (World (heap w) (handles w) (trace w)) with w by (by destruct w).
    destruct (intrusive_ptr_add_ref p w) as [[[] w1]|]; [|done].
    by apply release_if_nonnull. }
  assert ((intrusive_ptr_add_ref p;; intrusive_ptr_release p) w
          = Some (tt, World (heap w) (handles w)
                        (trace w ++ [EvAddRef p; EvRelease p]))) as Hrun.
  { rewrite bind_unfold. unfold intrusive_ptr_add_ref, intrusive_ptr_release.
    rewrite !decide_False by done. rewrite Hc. cbn.
    rewrite lookup_insert_eq. cbn.
    rewrite wrap32_succ_pred by lia.
    destruct (Z.eqb_spec c 0) as [?|_]; [lia|].
    rewrite insert_insert_eq, insert_id by done.
    rewrite decide_False by done. by rewrite <- app_assoc. }
  unfold get.
  rewrite !(bind_unfold (load h)), !(load_Some _ _ _ Hh).
  split; [done|]. split; [by rewrite Hshape|]. split; [|split].
  - rewrite bind_unfold, Hshape, Hrun. unfold use_count. cbn. by rewrite Hc.
  - rewrite bind_unfold. unfold intrusive_ptr_add_ref, use_count.
    rewrite decide_False by done. rewrite Hc. cbn.
    by rewrite lookup_insert_eq.
  - intros Hlt. unfold wrap32, UINT_MODULUS in *. apply Z.mod_small. lia.
Qed.

(** The sole owner of a pointee with count exactly 1. *)
Lemma C9_witness :
  (handles (sole_world 1) !! 0%nat = Some 1%N ∧ 1%N ≠ nullptr ∧
   heap (sole_world 1) !! 1%N = Some 1 ∧ 1 ≤ 1 < UINT_MODULUS) ∧
  (q ← get 0; assign_raw 0 q) (sole_world 1)
  = Some (tt, World {[ 1%N := 1 ]} {[ 0%nat := 1%N ]}
                [EvAddRef 1; EvRelease 1]) ∧
  (q ← get 0; assign_raw 0 q;; use_count 1) (sole_world 1)
  = Some (1, World {[ 1%N := 1 ]} {[ 0%nat := 1%N ]}
               [EvAddRef 1; EvRelease 1]).
Proof.
  assert (1%N ≠ nullptr) as HP by done.
  assert (1 ≤ 1 < UINT_MODULUS) as Hr by (unfold UINT_MODULUS; lia).
  destruct (C9_raw_self_assignment_keeps_the_pointee (sole_world 1) 0 1 1
              eq_refl HP eq_refl Hr) as (_ & H2 & H3 & _).
  split; [by repeat split|]. split; [exact H2|exact H3].
Defined.

(** C9 as stated fails for a non-empty handle whose pointee has count 0,
    the state reached by constructing the handle without the initial
    increment on a new pointee: the self-assignment increments to 1,
    decrements to 0 and deletes the pointee, and the handle dangles. *)
Lemma C9_counterexample :
  run [OpCtorRaw 0 1 false] fresh_world = Some (tt, sole_world 0) ∧
  handles (sole_world 0) !! 0%nat = Some 1%N ∧
  1%N ≠ nullptr ∧
  (q ← get 0; assign_raw 0 q) (sole_world 0)
  = Some (tt, World ∅ {[ 0%nat := 1%N ]}
                [EvAddRef 1; EvRelease 1; EvDelete 1]) ∧
  (q ← get 0; assign_raw 0 q;; use_count 1) (sole_world 0) = None.
Proof. repeat split; reflexivity || discriminate. Qed.

(** C10.  Releasing a live pointee whose counter is 0 wraps the counter to
    2^32 - 1; the zero test fails, the pointee stays in the heap and the
    trace gains the release but no deletion. *)
Theorem C10_release_at_zero_wraps (w : world) (p : N) :
  p ≠ nullptr →
  heap w !! p = Some 0 →
  intrusive_ptr_release p w
  = Some (tt, World (<[p:=4294967295]> (heap w)) (handles w)
                (trace w ++ [EvRelease p])) ∧
  (intrusive_ptr_release p;; use_count p) w
  = Some (UINT_MODULUS - 1,
          World (<[p:=4294967295]> (heap w)) (handles w)
            (trace w ++ [EvRelease p])) ∧
  dels p (trace w ++ [EvRelease p]) = dels p (trace w).
Proof.
  intros Hp Hc.
  assert (intrusive_ptr_release p w
          = Some (tt, World (<[p:=4294967295]> (heap w)) (handles w)
                        (trace w ++ [EvRelease p]))) as Hrel.
  { unfold intrusive_ptr_release. rewrite decide_False by done. by rewrite Hc. }
  split; [done|]. split.
  - rewrite bind_unfold, Hrel. unfold use_count. cbn.
    by rewrite lookup_insert_eq.
  - unfold dels. rewrite tally_app, tally_one.
    rewrite decide_False by done. lia.
Qed.

(** A new pointee, never wrapped in a handle, is released once. *)
Lemma C10_witness :
  (1%N ≠ nullptr ∧ heap fresh_world !! 1%N = Some 0) ∧
  intrusive_ptr_release 1 fresh_world
  = Some (tt, World {[ 1%N := 4294967295 ]} ∅ [EvRelease 1]).
Proof.
  assert (1%N ≠ nullptr) as HP by done.
  destruct (C10_release_at_zero_wraps fresh_world 1 HP eq_refl) as (H1 & _).
  split; [by split|]. rewrite H1. reflexivity.
Defined.

(** * Further properties of the handle and of the counter base *)

Lemma load_None w h : handles w !! h = None → load h w = None.
Proof. intros H. unfold load. by rewrite H. Qed.
Lemma alloc_None w h p q : handles w !! h = Some q → alloc h p w = None.
Proof. intros H. unfold alloc. by rewrite H. Qed.

Ltac dead :=
  repeat first
    [ rewrite bind_unfold
    | rewrite load_None by done
    | erewrite load_Some by done
    | erewrite alloc_None by done
    | rewrite temp_swap_dead by done ];
  try done.

Lemma exec_hooks_of (o : op) (w : world) : exec o w = hooks_of o w.
Proof.
  unfold hooks_of.
  destruct o; cbn [exec shape].
  - destruct (handles w !! this) as [?|] eqn:Ht.
    + unfold ctor_default. dead.
    + rewrite hooks_nothing. by apply ctor_default_run.
  - destruct (handles w !! this) as [?|] eqn:Ht.
    + unfold ctor_raw. dead.
    + rewrite hooks_add_only. by apply ctor_raw_run.
  - destruct (handles w !! r) as [p|] eqn:Hr.
    2: { unfold ctor_copy. dead. }
    destruct (handles w !! this) as [?|] eqn:Ht.
    + unfold ctor_copy. dead.
    + rewrite hooks_add_only. by apply ctor_copy_run.
  - destruct (handles w !! r) as [p|] eqn:Hr.
    2: { unfold ctor_copy_conv, get. dead. }
    destruct (handles w !! this) as [?|] eqn:Ht.
    + unfold ctor_copy_conv, get. dead.
    + rewrite hooks_add_only, ctor_copy_conv_run. by apply ctor_copy_run.
  - destruct (handles w !! r) as [p|] eqn:Hr.
    2: { unfold ctor_move. dead. }
    destruct (handles w !! this) as [?|] eqn:Ht.
    + unfold ctor_move. dead.
    + rewrite hooks_nothing. by apply ctor_move_run.
  - destruct (handles w !! r) as [p|] eqn:Hr.
    2: { unfold ctor_move_conv, get. dead. }
    destruct (handles w !! this) as [?|] eqn:Ht.
    + unfold ctor_move_conv, get. dead.
    + rewrite hooks_nothing. by apply ctor_move_conv_run.
  - destruct (handles w !! this) as [m|] eqn:Ht.
    2: { unfold dtor. dead. }
    rewrite hooks_release_only. by apply dtor_run.
  - destruct (handles w !! r) as [p|] eqn:Hr.
    2: { unfold assign_copy. dead. }
    destruct (handles w !! this) as [m|] eqn:Ht.
    2: { unfold assign_copy. dead. }
    destruct (decide (p = m)) as [->|Hne].
    + rewrite hooks_nothing.
      replace (World (heap w) (handles w) (trace w)) with w by (by destruct w).
      by apply (assign_copy_same _ _ _ m).
    + by apply assign_copy_run.
  - destruct (handles w !! r) as [p|] eqn:Hr.
    2: { unfold assign_copy_conv.
         destruct (handles w !! this) as [m|] eqn:Ht; [|dead].
         rewrite (temp_swap_run _ _ _ m) by done.
         unfold ctor_copy_conv, get. dead. }
    destruct (handles w !! this) as [m|] eqn:Ht.
    2: { unfold assign_copy_conv. dead. }
    by apply assign_copy_conv_run.
  - destruct (handles w !! this) as [m|] eqn:Ht.
    2: { unfold assign_raw. dead. }
    by apply assign_raw_run.
  - destruct (handles w !! r) as [p|] eqn:Hr.
    2: { unfold assign_move. dead. }
    destruct (handles w !! this) as [m|] eqn:Ht.
    2: { unfold assign_move. dead. }
    destruct (decide (p = m)) as [->|Hne].
    + rewrite hooks_nothing.
      replace (World (heap w) (handles w) (trace w)) with w by (by destruct w).
      by apply (assign_move_same _ _ _ m).
    + rewrite hooks_release_only. by apply assign_move_run.
  - destruct (handles w !! r) as [p|] eqn:Hr.
    2: { unfold assign_move_conv.
         destruct (handles w !! this) as [m|] eqn:Ht; [|dead].
         rewrite (temp_swap_run _ _ _ m) by done.
         unfold ctor_move_conv, get. dead. }
    destruct (handles w !! this) as [m|] eqn:Ht.
    2: { unfold assign_move_conv. dead. }
    rewrite hooks_release_only. by apply assign_move_conv_run.
  - destruct (handles w !! this) as [m|] eqn:Ht.
    2: { unfold reset. dead. }
    rewrite hooks_release_only. by apply reset_run.
  - destruct (handles w !! this) as [m|] eqn:Ht.
    2: { unfold reset_raw. dead. }
    by apply reset_raw_run.
  - destruct (handles w !! this) as [m|] eqn:Ht.
    2: { unfold reset_raw_flag. dead. }
    by apply reset_raw_flag_run.
  - destruct (handles w !! this) as [m|] eqn:Ht.
    2: { unfold detach. dead. }
    by rewrite hooks_nothing, bind_unfold, (detach_run _ _ m).
  - destruct (handles w !! a) as [x|] eqn:Ha.
    2: { unfold swap. dead. }
    destruct (handles w !! b) as [y|] eqn:Hb.
    2: { unfold swap. dead. }
    rewrite hooks_nothing. by apply swap_run.
Qed.

(** X1.  Each of the 17 handle operations is, in every world, one update of
    the handle store together with at most one guarded increment followed
    by at most one guarded decrement, all determined by the handle store
    alone ([shape]); it is undefined when [shape] is, that is when it is
    applied to a handle that does not exist or constructs one that does. *)
Theorem X1_every_operation_is_hooks_around_one_store_update
  (o : op) (w : world) :
  exec o w
  = match shape o (handles w) with
    | Some (p, b, m, hs') =>
        (when (negb (is_null p) && b) (intrusive_ptr_add_ref p);;
         when (negb (is_null m)) (intrusive_ptr_release m))
          (World (heap w) hs' (trace w))
    | None => None
    end.
Proof. apply exec_hooks_of. Qed.

Lemma exec_handles o w w' p b m hs' :
  exec o w = Some (tt, w') → shape o (handles w) = Some (p, b, m, hs') →
  handles w' = hs'.
Proof.
  rewrite exec_hooks_of.
  unfold hooks_of. intros Hrun Hsh. rewrite Hsh in Hrun.
  apply hook_only_handles in Hrun; [done|auto with hooks].
Qed.

Lemma exec_shape_Some o w w' :
  exec o w = Some (tt, w') → is_Some (shape o (handles w)).
Proof.
  rewrite exec_hooks_of.
  unfold hooks_of. by destruct (shape o (handles w)).
Qed.

Lemma shape_frame o hs p b m hs' h :
  shape o hs = Some (p, b, m, hs') → h ∉ names o → hs' !! h = hs !! h.
Proof.
  intros Hsh Hh. destruct o; cbn [shape names] in *;
    repeat case_match; simplify_eq;
    repeat (apply not_elem_of_cons in Hh as [? Hh]);
    rewrite ?lookup_insert_ne, ?lookup_delete_ne by done; done.
Qed.

Lemma shape_dom o hs p b m hs' :
  shape o hs = Some (p, b, m, hs') → dom hs' = lifetimes o (dom hs).
Proof.
  intros Hsh. destruct o; cbn [shape lifetimes] in *;
    repeat case_match; simplify_eq;
    rewrite ?dom_insert_L, ?dom_delete_L;
    repeat match goal with
    | H : _ !! _ = Some _ |- _ => apply elem_of_dom_2 in H
    end; try done;
    set_unfold; intros x; intuition (subst; auto).
Qed.

(** X2.  An operation that succeeds leaves every handle other than the
    ones it is applied to as it was, and the set of live handle objects
    changes only by the constructed or destroyed handle: no temporary
    outlives the statement that created it. *)
Theorem X2_only_named_handles_change (o : op) (w w' : world) :
  exec o w = Some (tt, w') →
  (∀ h, h ∉ names o → handles w' !! h = handles w !! h) ∧
  dom (handles w') = lifetimes o (dom (handles w)).
Proof.
  intros Hrun.
  destruct (exec_shape_Some _ _ _ Hrun) as [[[[p b] m] hs'] Hsh].
  rewrite (exec_handles _ _ _ _ _ _ _ Hrun Hsh). split.
  - intros h Hh. by eapply shape_frame.
  - by eapply shape_dom.
Qed.

(** Raw-pointer assignment to handle 0 leaves handle 1 alone. *)
Lemma X2_witness :
  let w' := World {[ 2%N := 2 ]} {[ 0%nat := 2%N; 1%nat := 2%N ]}
              [EvAddRef 2; EvRelease 1; EvDelete 1] in
  exec (OpAssignRaw 0 2) two_world = Some (tt, w') ∧
  handles w' !! 1%nat = handles two_world !! 1%nat ∧
  dom (handles w') = dom (handles two_world).
Proof.
  intros w'.
  destruct (X2_only_named_handles_change (OpAssignRaw 0 2) two_world w' eq_refl)
    as [Hframe Hdom].
  split; [reflexivity|]. split; [|exact Hdom].
  apply Hframe. cbn. intros Hin. apply list_elem_of_singleton in Hin. discriminate.
Defined.

Lemma shape_released_held o hs p b m hs' :
  shape o hs = Some (p, b, m, hs') → m ≠ nullptr → ∃ h, hs !! h = Some m.
Proof.
  intros Hsh Hm. destruct o; cbn [shape] in *;
    repeat case_match; simplify_eq; eauto.
Qed.

(** X3.  One operation calls each hook at most once on a given pointee,
    and it calls the release hook only on a pointee that some live handle
    held before: a pointee held by no handle is neither decremented nor
    deleted, and stays alive if it was. *)
Theorem X3_only_held_pointees_are_released (o : op) (w w' : world) (P : N) :
  P ≠ nullptr →
  exec o w = Some (tt, w') →
  adds P (trace w) ≤ adds P (trace w') ≤ adds P (trace w) + 1 ∧
  rels P (trace w) ≤ rels P (trace w') ≤ rels P (trace w) + 1 ∧
  (holders P (handles w) = 0 →
     rels P (trace w') = rels P (trace w) ∧
     dels P (trace w') = dels P (trace w) ∧
     (is_Some (heap w !! P) → is_Some (heap w' !! P))).
Proof.
  intros HP Hrun.
  destruct (exec_shape_Some _ _ _ Hrun) as [[[[p b] m] hs'] Hsh].
  rewrite exec_hooks_of in Hrun.
  unfold hooks_of in Hrun. rewrite Hsh, bind_unfold in Hrun.
  destruct (add_ref_if p b _) as [[[] w1]|] eqn:E1; [|done].
  apply (add_ref_if_ledger P) in E1 as (_ & Ha1 & Hr1 & Hd1 & Hc1); [|done].
  pose proof (release_if_ledger P _ _ _ HP Hrun) as (_ & Ha2 & Hr2 & Hc2).
  cbn [heap trace handles] in *.
  assert (0 ≤ ind P m ≤ 1) by (unfold ind; destruct (decide (m = P)); lia).
  assert (0 ≤ (if b then ind P p else 0) ≤ 1).
  { unfold ind. destruct b, (decide (p = P)); lia. }
  split; [lia|]. split; [lia|].
  intros Hnone.
  assert (m ≠ P) as Hne.
  { intros ->. destruct (shape_released_held _ _ _ _ _ _ Hsh HP) as [h Hh].
    pose proof (holders_lookup _ _ _ Hh). lia. }
  rewrite decide_False in Hc2 by done. destruct Hc2 as [Hc2 Hd2].
  unfold ind in Hr2. rewrite decide_False in Hr2 by done.
  split; [lia|]. split; [lia|].
  rewrite Hc2. case_decide.
  - destruct Hc1 as (c & _ & ->). by eexists.
  - by rewrite Hc1.
Qed.

(** A new pointee held by nobody is wrapped: one increment, no decrement. *)
Lemma X3_witness :
  let w' := World {[ 1%N := 1 ]} {[ 0%nat := 1%N ]} [EvAddRef 1] in
  (1%N ≠ nullptr ∧ exec (OpCtorRaw 0 1 true) fresh_world = Some (tt, w') ∧
   holders 1 (handles fresh_world) = 0) ∧
  adds 1 (trace w') ≤ adds 1 (trace fresh_world) + 1 ∧
  rels 1 (trace w') = rels 1 (trace fresh_world) ∧
  dels 1 (trace w') = dels 1 (trace fresh_world) ∧
  (is_Some (heap fresh_world !! 1%N) → is_Some (heap w' !! 1%N)).
Proof.
  intros w'. assert (1%N ≠ nullptr) as HP by done.
  assert (holders 1 (handles fresh_world) = 0) as Hnone by reflexivity.
  destruct (X3_only_held_pointees_are_released (OpCtorRaw 0 1 true)
              fresh_world w' 1 HP eq_refl) as ([_ Ha] & _ & Hheld).
  destruct (Hheld Hnone) as (Hr & Hd & Halive).
  split; [by repeat split|]. by repeat split.
Defined.

Lemma world_eta w : World (heap w) (handles w) (trace w) = w.
Proof. by destruct w. Qed.

Lemma world_handles_ext {A} (a : A) hp tr (hs1 hs2 : gmap nat N) :
  hs1 = hs2 → Some (a, World hp hs1 tr) = Some (a, World hp hs2 tr).
Proof. by intros ->. Qed.

Lemma world_handles_id {A} (a : A) w (hs : gmap nat N) :
  hs = handles w → Some (a, World (heap w) hs (trace w)) = Some (a, w).
Proof. intros ->. by rewrite world_eta. Qed.

(** X4.  [swap] exchanges the two pointers and changes neither heap nor
    trace; the free function is the member function; it is symmetric in
    its operands, swapping twice restores the world, and the number of
    handles holding any pointee is unchanged. *)
Theorem X4_swap_exchanges_without_counting
  (w : world) (a b : nat) (x y : N) (P : N) :
  handles w !! a = Some x →
  handles w !! b = Some y →
  swap a b w
  = Some (tt, World (heap w) (<[b:=x]> (<[a:=y]> (handles w))) (trace w)) ∧
  swap_free a b w = swap a b w ∧
  swap b a w = swap a b w ∧
  (swap a b;; swap a b) w = Some (tt, w) ∧
  (swap a b;; get a) w
  = Some (y, World (heap w) (<[b:=x]> (<[a:=y]> (handles w))) (trace w)) ∧
  (swap a b;; get b) w
  = Some (x, World (heap w) (<[b:=x]> (<[a:=y]> (handles w))) (trace w)) ∧
  holders P (<[b:=x]> (<[a:=y]> (handles w))) = holders P (handles w).
Proof.
  intros Ha Hb.
  assert (swap a b w
          = Some (tt, set_handles (<[b:=x]> (<[a:=y]> (handles w))) w)) as Hs
    by (by apply swap_run).
  split; [done|]. split; [done|]. split; [|split; [|split; [|split]]].
  - rewrite Hs, (swap_run _ _ _ y x) by done. apply world_handles_ext.
    destruct (decide (a = b)) as [->|Hne]; [by simplify_eq|map_ext].
  - rewrite bind_unfold, Hs.
    rewrite (swap_run _ _ _ y x); cbn.
    + unfold set_handles. cbn [heap handles trace].
      apply world_handles_id. map_ext.
    + destruct (decide (a = b)) as [->|Hne]; simplify_map_eq; done.
    + by rewrite lookup_insert_eq.
  - rewrite bind_unfold, Hs. unfold get, load. cbn.
    destruct (decide (a = b)) as [->|Hne]; simplify_map_eq; done.
  - rewrite bind_unfold, Hs. unfold get, load. cbn.
    by rewrite lookup_insert_eq.
  - rewrite !holders_insert.
    destruct (decide (a = b)) as [->|Hne]; simplify_map_eq; cbn; lia.
Qed.

(** Handles 0 and 1 of two different pointees are swapped. *)
Lemma X4_witness :
  (handles two_world !! 0%nat = Some 1%N ∧
   handles two_world !! 1%nat = Some 2%N) ∧
  swap 0 1 two_world
  = Some (tt, World {[ 1%N := 1; 2%N := 1 ]}
                {[ 0%nat := 2%N; 1%nat := 1%N ]} []) ∧
  (swap 0 1;; swap 0 1) two_world = Some (tt, two_world).
Proof.
  destruct (X4_swap_exchanges_without_counting two_world 0 1 1 2 1
              eq_refl eq_refl) as (Hs & _ & _ & Hinv & _).
  split; [by split|]. split; [rewrite Hs; reflexivity|exact Hinv].
Defined.

Lemma add_ref_at w p c :
  p ≠ nullptr → heap w !! p = Some c →
  intrusive_ptr_add_ref p w
  = Some (tt, World (<[p:=wrap32 (c + 1)]> (heap w)) (handles w)
                (trace w ++ [EvAddRef p])).
Proof.
  intros Hp Hc. unfold intrusive_ptr_add_ref.
  rewrite decide_False by done. by rewrite Hc.
Qed.

Lemma release_at w p c :
  p ≠ nullptr → heap w !! p = Some c →
  intrusive_ptr_release p w
  = Some (tt, if decide (wrap32 (c - 1) = 0)
              then World (delete p (heap w)) (handles w)
                     (trace w ++ [EvRelease p; EvDelete p])
              else World (<[p:=wrap32 (c - 1)]> (heap w)) (handles w)
                     (trace w ++ [EvRelease p])).
Proof.
  intros Hp Hc. unfold intrusive_ptr_release.
  rewrite decide_False by done. rewrite Hc. cbn.
  destruct (Z.eqb_spec (wrap32 (c - 1)) 0) as [Hz|Hz].
  - by rewrite decide_True.
  - by rewrite decide_False.
Qed.

Lemma wrap32_small z : 0 ≤ z < UINT_MODULUS → wrap32 z = z.
Proof. intros H. unfold wrap32. by apply Z.mod_small. Qed.

Lemma wrap32_pred_succ c :
  1 ≤ c < UINT_MODULUS → wrap32 (wrap32 (c - 1) + 1) = c.
Proof.
  intros Hc. rewrite (wrap32_small (c - 1)) by lia.
  replace (c - 1 + 1) with c by lia. apply wrap32_small. lia.
Qed.

Lemma add_ref_release_at w p c :
  p ≠ nullptr → heap w !! p = Some c → 1 ≤ c < UINT_MODULUS →
  (intrusive_ptr_add_ref p;; intrusive_ptr_release p) w
  = Some (tt, World (heap w) (handles w)
                (trace w ++ [EvAddRef p; EvRelease p])).
Proof.
  intros Hp Hc Hrange. rewrite bind_unfold, (add_ref_at _ _ c) by done.
  rewrite (release_at _ _ (wrap32 (c + 1)))
    by (done || cbn; by rewrite lookup_insert_eq).
  rewrite wrap32_succ_pred by lia.
  rewrite decide_False by lia. cbn.
  rewrite insert_insert_eq, insert_id by done. by rewrite <- app_assoc.
Qed.

(** X5.  On a live pointee the increment hook never deletes: it stores
    the count plus one modulo 2^32, which is 0 at count 2^32 - 1.
    Increment then decrement restores the heap for every count of at least
    1; decrement then increment restores it for every count of at least 2;
    at count 1 the decrement deletes the pointee and the increment that
    follows is undefined. *)
Theorem X5_hooks_are_inverse_and_wrap (w : world) (p : N) (c : Z) :
  p ≠ nullptr →
  heap w !! p = Some c →
  0 ≤ c < UINT_MODULUS →
  intrusive_ptr_add_ref p w
  = Some (tt, World (<[p:=wrap32 (c + 1)]> (heap w)) (handles w)
                (trace w ++ [EvAddRef p])) ∧
  (c = UINT_MODULUS - 1 → wrap32 (c + 1) = 0) ∧
  (1 ≤ c →
   (intrusive_ptr_add_ref p;; intrusive_ptr_release p) w
   = Some (tt, World (heap w) (handles w)
                 (trace w ++ [EvAddRef p; EvRelease p]))) ∧
  (2 ≤ c →
   (intrusive_ptr_release p;; intrusive_ptr_add_ref p) w
   = Some (tt, World (heap w) (handles w)
                 (trace w ++ [EvRelease p; EvAddRef p]))) ∧
  (c = 1 →
   intrusive_ptr_release p w
   = Some (tt, World (delete p (heap w)) (handles w)
                 (trace w ++ [EvRelease p; EvDelete p])) ∧
   (intrusive_ptr_release p;; intrusive_ptr_add_ref p) w = None).
Proof.
  intros Hp Hc Hrange.
  split; [by apply add_ref_at|]. split; [by intros ->|].
  split; [|split].
  - intros H1. apply (add_ref_release_at _ _ c); [done..|lia].
  - intros H2. rewrite bind_unfold, (release_at _ _ c) by done.
    rewrite (wrap32_small (c - 1)) by lia. rewrite decide_False by lia.
    rewrite (add_ref_at _ _ (c - 1))
      by (done || cbn; by rewrite lookup_insert_eq).
    cbn. replace (c - 1 + 1) with c by lia. rewrite wrap32_small by done.
    rewrite insert_insert_eq, insert_id by done. by rewrite <- app_assoc.
  - intros ->. rewrite bind_unfold, (release_at _ _ 1) by done.
    change (wrap32 (1 - 1)) with 0. rewrite decide_True by done.
    split; [done|]. unfold intrusive_ptr_add_ref.
    rewrite decide_False by done. cbn. by rewrite lookup_delete_eq.
Qed.

(** A pointee with count 1. *)
Lemma X5_witness :
  (1%N ≠ nullptr ∧ heap (sole_world 1) !! 1%N = Some 1 ∧
   0 ≤ 1 < UINT_MODULUS) ∧
  (intrusive_ptr_add_ref 1;; intrusive_ptr_release 1) (sole_world 1)
  = Some (tt, World {[ 1%N := 1 ]} {[ 0%nat := 1%N ]}
                [EvAddRef 1; EvRelease 1]) ∧
  (intrusive_ptr_release 1;; intrusive_ptr_add_ref 1) (sole_world 1) = None.
Proof.
  assert (1%N ≠ nullptr) as HP by done.
  assert (0 ≤ 1 < UINT_MODULUS) as Hr by (unfold UINT_MODULUS; lia).
  destruct (X5_hooks_are_inverse_and_wrap (sole_world 1) 1 1 HP eq_refl Hr)
    as (_ & _ & Hinv & _ & Hlast).
  split; [by repeat split|]. split.
  - apply Hinv. lia.
  - by destruct (Hlast eq_refl).
Defined.

(** X6.  Copy construction from a handle holding a live pointee with count
    [c] (at least 1 and below 2^32 - 1) yields a second handle to it and
    count [c + 1], by one increment; the converting form and construction
    from the raw pointer with increment do the same.  Destroying then
    either the copy or the original brings the count back to [c] and
    leaves the pointee alive. *)
Theorem X6_copy_adds_one_owner (w : world) (h r : nat) (p : N) (c : Z) :
  handles w !! r = Some p →
  handles w !! h = None →
  p ≠ nullptr →
  heap w !! p = Some c →
  1 ≤ c < UINT_MODULUS - 1 →
  ctor_copy h r w
  = Some (tt, World (<[p:=c + 1]> (heap w)) (<[h:=p]> (handles w))
                (trace w ++ [EvAddRef p])) ∧
  ctor_copy_conv h r w = ctor_copy h r w ∧
  ctor_raw h p true w = ctor_copy h r w ∧
  (ctor_copy h r;; dtor h) w
  = Some (tt, World (heap w) (handles w)
                (trace w ++ [EvAddRef p; EvRelease p])) ∧
  (ctor_copy h r;; dtor r) w
  = Some (tt, World (heap w) (delete r (<[h:=p]> (handles w)))
                (trace w ++ [EvAddRef p; EvRelease p])).
Proof.
  intros Hr Hh Hp Hc Hrange. unfold UINT_MODULUS in Hrange.
  assert (h ≠ r) as Hne by congruence.
  assert (ctor_copy h r w
          = Some (tt, World (<[p:=c + 1]> (heap w)) (<[h:=p]> (handles w))
                        (trace w ++ [EvAddRef p]))) as Hcopy.
  { rewrite (ctor_copy_run _ _ _ p), add_ref_if_nonnull by done.
    rewrite (add_ref_at _ _ c) by done.
    rewrite wrap32_small by (unfold UINT_MODULUS; lia). done. }
  assert (∀ hs, intrusive_ptr_release p
            (World (<[p:=c + 1]> (heap w)) hs (trace w ++ [EvAddRef p]))
          = Some (tt, World (heap w) hs
                        (trace w ++ [EvAddRef p; EvRelease p]))) as Hrel.
  { intros hs. rewrite (release_at _ _ (c + 1))
      by (done || cbn; by rewrite lookup_insert_eq).
    replace (c + 1 - 1) with c by lia.
    rewrite wrap32_small by (unfold UINT_MODULUS; lia).
    rewrite decide_False by lia. cbn.
    rewrite insert_insert_eq, insert_id by done. by rewrite <- app_assoc. }
  split; [done|]. split; [done|]. split; [|split].
  - by rewrite ctor_raw_run, (ctor_copy_run _ _ _ p).
  - rewrite bind_unfold, Hcopy.
    rewrite (dtor_run _ _ p) by (cbn; by rewrite lookup_insert_eq).
    rewrite release_if_nonnull by done. unfold set_handles. cbn.
    rewrite Hrel. apply world_handles_ext. by rewrite delete_insert_id.
  - rewrite bind_unfold, Hcopy.
    rewrite (dtor_run _ _ p) by (cbn; by rewrite lookup_insert_ne).
    rewrite release_if_nonnull by done. unfold set_handles. cbn.
    by rewrite Hrel.
Qed.

(** The sole owner is copied into handle 1. *)
Lemma X6_witness :
  (handles (sole_world 1) !! 0%nat = Some 1%N ∧
   handles (sole_world 1) !! 1%nat = None ∧ 1%N ≠ nullptr ∧
   heap (sole_world 1) !! 1%N = Some 1 ∧ 1 ≤ 1 < UINT_MODULUS - 1) ∧
  ctor_copy 1 0 (sole_world 1)
  = Some (tt, World {[ 1%N := 2 ]} {[ 0%nat := 1%N; 1%nat := 1%N ]}
                [EvAddRef 1]) ∧
  (ctor_copy 1 0;; dtor 1) (sole_world 1)
  = Some (tt, World {[ 1%N := 1 ]} {[ 0%nat := 1%N ]}
                [EvAddRef 1; EvRelease 1]).
Proof.
  assert (1%N ≠ nullptr) as HP by done.
  assert (1 ≤ 1 < UINT_MODULUS - 1) as Hr by (unfold UINT_MODULUS; lia).
  destruct (X6_copy_adds_one_owner (sole_world 1) 1 0 1 1
              eq_refl eq_refl HP eq_refl Hr) as (Hc & _ & _ & Hrt & _).
  split; [by repeat split|]. split; [rewrite Hc; reflexivity|exact Hrt].
Defined.

(** X7.  Destroying or resetting a handle whose pointee has count 1
    deletes the pointee; with a count of at least 2 the count drops by
    exactly one and the pointee stays.  The destructor ends the handle's
    lifetime, [reset()] leaves it empty. *)
Theorem X7_last_owner_deletes (w : world) (this : nat) (p : N) (c : Z) :
  handles w !! this = Some p →
  p ≠ nullptr →
  heap w !! p = Some c →
  1 ≤ c < UINT_MODULUS →
  (c = 1 →
   dtor this w
   = Some (tt, World (delete p (heap w)) (delete this (handles w))
                 (trace w ++ [EvRelease p; EvDelete p])) ∧
   reset this w
   = Some (tt, World (delete p (heap w)) (<[this:=nullptr]> (handles w))
                 (trace w ++ [EvRelease p; EvDelete p]))) ∧
  (2 ≤ c →
   dtor this w
   = Some (tt, World (<[p:=c - 1]> (heap w)) (delete this (handles w))
                 (trace w ++ [EvRelease p])) ∧
   reset this w
   = Some (tt, World (<[p:=c - 1]> (heap w)) (<[this:=nullptr]> (handles w))
                 (trace w ++ [EvRelease p]))).
Proof.
  intros Ht Hp Hc Hrange.
  rewrite (dtor_run _ _ p), (reset_run _ _ p) by done.
  rewrite !release_if_nonnull by done.
  rewrite !(release_at _ _ c) by done.
  rewrite (wrap32_small (c - 1)) by lia.
  split.
  - intros ->. by rewrite !decide_True.
  - intros H2. by rewrite !decide_False by lia.
Qed.

(** The sole owner of a pointee with count 1 goes away. *)
Lemma X7_witness :
  (handles (sole_world 1) !! 0%nat = Some 1%N ∧ 1%N ≠ nullptr ∧
   heap (sole_world 1) !! 1%N = Some 1 ∧ 1 ≤ 1 < UINT_MODULUS) ∧
  dtor 0 (sole_world 1)
  = Some (tt, World ∅ ∅ [EvRelease 1; EvDelete 1]) ∧
  reset 0 (sole_world 1)
  = Some (tt, World ∅ {[ 0%nat := nullptr ]} [EvRelease 1; EvDelete 1]).
Proof.
  assert (1%N ≠ nullptr) as HP by done.
  assert (1 ≤ 1 < UINT_MODULUS) as Hr by (unfold UINT_MODULUS; lia).
  destruct (X7_last_owner_deletes (sole_world 1) 0 1 1 eq_refl HP eq_refl Hr)
    as (Hlast & _).
  destruct (Hlast eq_refl) as [Hd Hrs].
  split; [by repeat split|]. split; [rewrite Hd|rewrite Hrs]; reflexivity.
Defined.

(** X8.  [reset()] is the destructor followed by default construction of
    the same handle, also where it is undefined; a second [reset()] adds
    nothing; on an empty handle it changes nothing; after it the handle is
    empty. *)
Theorem X8_reset_is_destroy_then_default (w : world) (this : nat) (m : N) :
  handles w !! this = Some m →
  reset this w = (dtor this;; ctor_default this) w ∧
  (reset this;; reset this) w = reset this w ∧
  (m = nullptr → reset this w = Some (tt, w)) ∧
  (∀ w', reset this w = Some (tt, w') →
         get this w' = Some (nullptr, w') ∧
         to_bool this w' = Some (false, w')).
Proof.
  intros Ht.
  assert (∀ w', reset this w = Some (tt, w') →
                handles w' = <[this:=nullptr]> (handles w)) as Hafter.
  { intros w'. rewrite (reset_run _ _ m) by done. intros Hw'.
    apply hook_only_handles in Hw'; [done|auto with hooks]. }
  split; [|split; [|split]].
  - rewrite (reset_run _ _ m), bind_unfold, (dtor_run _ _ m) by done.
    rewrite !hook_only_release_if.
    destruct (release_if m w) as [[[] w1]|] eqn:E; cbn [rehandle]; [|done].
    rewrite ctor_default_run by (cbn; by rewrite lookup_delete_eq).
    unfold set_handles. cbn. apply world_handles_ext.
    by rewrite insert_delete_eq.
  - rewrite bind_unfold.
    destruct (reset this w) as [[[] w1]|] eqn:E; [|done].
    pose proof (Hafter _ eq_refl) as Hh.
    rewrite (reset_run _ _ nullptr) by (rewrite Hh; by rewrite lookup_insert_eq).
    rewrite release_if_null. unfold set_handles.
    apply world_handles_id. by rewrite Hh, insert_insert_eq.
  - intros ->. rewrite (reset_run _ _ nullptr), release_if_null by done.
    unfold set_handles. apply world_handles_id. by rewrite insert_id.
  - intros w' Hw'. pose proof (Hafter _ Hw') as Hh.
    unfold to_bool, get. rewrite bind_unfold.
    rewrite (load_Some _ _ nullptr) by (rewrite Hh; by rewrite lookup_insert_eq).
    done.
Qed.

(** The sole owner is reset. *)
Lemma X8_witness :
  handles (sole_world 1) !! 0%nat = Some 1%N ∧
  reset 0 (sole_world 1) = (dtor 0;; ctor_default 0) (sole_world 1) ∧
  (reset 0;; reset 0) (sole_world 1) = reset 0 (sole_world 1).
Proof.
  destruct (X8_reset_is_destroy_then_default (sole_world 1) 0 1 eq_refl)
    as (H1 & H2 & _).
  by repeat split.
Defined.

(** X9.  Converting copy assignment agrees with same-type copy assignment
    whenever source and target hold different pointers.  When they hold
    the same pointer the same-type operator does nothing, while the
    converting one, having no pointer comparison, increments and then
    decrements the pointee (count at least 1): heap and handles end up the
    same, the trace gains the two hook calls.  With both empty it changes
    nothing. *)
Theorem X9_converting_copy_assignment_has_no_guard
  (w : world) (this r : nat) (p m : N) :
  handles w !! r = Some p →
  handles w !! this = Some m →
  (p ≠ m → assign_copy_conv this r w = assign_copy this r w) ∧
  (p = m → assign_copy this r w = Some (tt, w)) ∧
  (p = m → p = nullptr → assign_copy_conv this r w = Some (tt, w)) ∧
  (∀ c, p = m → p ≠ nullptr → heap w !! p = Some c → 1 ≤ c < UINT_MODULUS →
        assign_copy_conv this r w
        = Some (tt, World (heap w) (handles w)
                      (trace w ++ [EvAddRef p; EvRelease p]))).
Proof.
  intros Hr Ht. split; [|split; [|split]].
  - intros Hne. by rewrite (assign_copy_run _ _ _ p m),
      (assign_copy_conv_run _ _ _ p m).
  - intros <-. by apply (assign_copy_same _ _ _ p).
  - intros <- ->. rewrite (assign_copy_conv_run _ _ _ nullptr nullptr) by done.
    cbn. unfold mret, M_ret, ret, set_handles.
    apply world_handles_id. by rewrite insert_id.
  - intros c <- Hp Hc Hrange.
    rewrite (assign_copy_conv_run _ _ _ p p) by done.
    unfold set_handles. rewrite insert_id, world_eta by done.
    rewrite bind_unfold, add_ref_if_nonnull by done.
    rewrite <- (add_ref_release_at w p c) by done. rewrite bind_unfold.
    destruct (intrusive_ptr_add_ref p w) as [[[] w1]|]; [|done].
    by apply release_if_nonnull.
Qed.

(** Two handles of one pointee with count 2. *)
Lemma X9_witness :
  (handles shared_world !! 1%nat = Some 1%N ∧
   handles shared_world !! 0%nat = Some 1%N) ∧
  assign_copy 0 1 shared_world = Some (tt, shared_world) ∧
  assign_copy_conv 0 1 shared_world
  = Some (tt, World {[ 1%N := 2 ]} {[ 0%nat := 1%N; 1%nat := 1%N ]}
                [EvAddRef 1; EvRelease 1]).
Proof.
  assert (1%N ≠ nullptr) as HP by done.
  assert (1 ≤ 2 < UINT_MODULUS) as Hr by (unfold UINT_MODULUS; lia).
  destruct (X9_converting_copy_assignment_has_no_guard shared_world 0 1 1 1
              eq_refl eq_refl) as (_ & Hsame & _ & Hconv).
  split; [by split|]. split; [by apply Hsame|].
  exact (Hconv 2 eq_refl HP eq_refl Hr).
Defined.

(** X10.  Copy assignment between handles of two different live pointees
    first increments the source's pointee, then decrements the target's
    previous pointee, deleting it if its count was 1; the target then
    holds the source's pointer and the source is unchanged. *)
Theorem X10_copy_assignment_increments_then_decrements
  (w : world) (this r : nat) (p m : N) (cp cm : Z) :
  handles w !! r = Some p →
  handles w !! this = Some m →
  p ≠ m → p ≠ nullptr → m ≠ nullptr →
  heap w !! p = Some cp →
  heap w !! m = Some cm →
  0 ≤ cp < UINT_MODULUS - 1 →
  1 ≤ cm < UINT_MODULUS →
  assign_copy this r w
  = (intrusive_ptr_add_ref p;; intrusive_ptr_release m)
      (World (heap w) (<[this:=p]> (handles w)) (trace w)) ∧
  (cm = 1 →
   assign_copy this r w
   = Some (tt, World (delete m (<[p:=cp + 1]> (heap w)))
                 (<[this:=p]> (handles w))
                 (trace w ++ [EvAddRef p; EvRelease m; EvDelete m]))) ∧
  (2 ≤ cm →
   assign_copy this r w
   = Some (tt, World (<[m:=cm - 1]> (<[p:=cp + 1]> (heap w)))
                 (<[this:=p]> (handles w))
                 (trace w ++ [EvAddRef p; EvRelease m]))) ∧
  (<[this:=p]> (handles w)) !! r = Some p.
Proof.
  intros Hr Ht Hne Hp Hm Hcp Hcm Hrp Hrm. unfold UINT_MODULUS in *.
  assert (this ≠ r) as Hthis by congruence.
  assert (assign_copy this r w
          = (intrusive_ptr_add_ref p;; intrusive_ptr_release m)
              (World (heap w) (<[this:=p]> (handles w)) (trace w))) as Hshape.
  { rewrite (assign_copy_run _ _ _ p m) by done.
    rewrite !bind_unfold, add_ref_if_nonnull by done. unfold set_handles.
    destruct (intrusive_ptr_add_ref p _) as [[[] w1]|]; [|done].
    by apply release_if_nonnull. }
  split; [done|]. rewrite Hshape, bind_unfold.
  rewrite (add_ref_at _ _ cp) by done.
  rewrite (wrap32_small (cp + 1)) by (unfold UINT_MODULUS; lia).
  rewrite (release_at _ _ cm) by (done || cbn; by rewrite lookup_insert_ne).
  rewrite (wrap32_small (cm - 1)) by (unfold UINT_MODULUS; lia). cbn.
  split; [|split].
  - intros ->. rewrite decide_True by done. by rewrite <- app_assoc.
  - intros H2. rewrite decide_False by lia. by rewrite <- app_assoc.
  - by rewrite lookup_insert_ne.
Qed.

(** Handle 0 (pointee 1, count 1) is assigned handle 1 (pointee 2). *)
Lemma X10_witness :
  (handles two_world !! 1%nat = Some 2%N ∧
   handles two_world !! 0%nat = Some 1%N ∧
   heap two_world !! 2%N = Some 1 ∧ heap two_world !! 1%N = Some 1) ∧
  assign_copy 0 1 two_world
  = Some (tt, World {[ 2%N := 2 ]} {[ 0%nat := 2%N; 1%nat := 2%N ]}
                [EvAddRef 2; EvRelease 1; EvDelete 1]).
Proof.
  assert (2%N ≠ 1%N) as Hne by done.
  assert (2%N ≠ nullptr) as Hp by done.
  assert (1%N ≠ nullptr) as Hm by done.
  assert (0 ≤ 1 < UINT_MODULUS - 1) as Hrp by (unfold UINT_MODULUS; lia).
  assert (1 ≤ 1 < UINT_MODULUS) as Hrm by (unfold UINT_MODULUS; lia).
  destruct (X10_copy_assignment_increments_then_decrements two_world 0 1 2 1 1 1
              eq_refl eq_refl Hne Hp Hm eq_refl eq_refl Hrp Hrm)
    as (_ & Hlast & _).
  split; [by repeat split|]. rewrite (Hlast eq_refl). reflexivity.
Defined.

(** X11.  [get()] and [operator->] return the stored pointer and
    [operator bool] its non-nullness, all without changing the world and
    whether or not the pointee is still alive; [operator bool] agrees with
    comparing against the null pointer in either operand order.
    [operator*] returns the pointee without changing the world when the
    handle is non-empty and its pointee is alive, and is undefined exactly
    when the handle is empty or its pointee is gone; in particular it is
    undefined whenever [operator bool] is false. *)
Theorem X11_observers_agree (w : world) (h : nat) (p : N) :
  handles w !! h = Some p →
  get h w = Some (p, w) ∧
  arrow h w = Some (p, w) ∧
  to_bool h w = Some (negb (bool_decide (p = nullptr)), w) ∧
  to_bool h w = ne_hp h nullptr w ∧
  to_bool h w = ne_ph nullptr h w ∧
  (p ≠ nullptr → is_Some (heap w !! p) → deref h w = Some (p, w)) ∧
  (deref h w = None ↔ p = nullptr ∨ heap w !! p = None) ∧
  (to_bool h w = Some (false, w) → deref h w = None).
Proof.
  intros Hh. unfold get, arrow, to_bool, ne_hp, ne_ph, deref, get.
  rewrite !bind_unfold, !(load_Some _ _ _ Hh).
  unfold is_null, ptr_eqb, mret, M_ret, ret, undefined, use_count.
  rewrite ?bind_unfold.
  repeat split; try done.
  - do 3 f_equal. apply bool_decide_ext. split; congruence.
  - intros Hp [c Hc]. rewrite bool_decide_eq_false_2 by done.
    by rewrite bind_unfold, Hc.
  - case_bool_decide as Hp; [auto|]. rewrite bind_unfold.
    destruct (heap w !! p); [done|auto].
  - intros [->|Hc]; [done|]. case_bool_decide; [done|].
    by rewrite bind_unfold, Hc.
  - case_bool_decide; done.
Qed.

(** A non-empty handle whose pointee is alive, and the same handle after
    its pointee was deleted behind its back. *)
Lemma X11_witness :
  handles (sole_world 1) !! 0%nat = Some 1%N ∧
  to_bool 0 (sole_world 1) = Some (true, sole_world 1) ∧
  deref 0 (sole_world 1) = Some (1%N, sole_world 1) ∧
  handles dangling_world !! 0%nat = Some 1%N ∧
  deref 0 dangling_world = None ∧
  arrow 0 dangling_world = Some (1%N, dangling_world).
Proof.
  assert (1%N ≠ nullptr) as HP by done.
  destruct (X11_observers_agree (sole_world 1) 0 1 eq_refl)
    as (_ & _ & Hb & _ & _ & Hd & _).
  destruct (X11_observers_agree dangling_world 0 1 eq_refl)
    as (_ & Harrow & _ & _ & _ & _ & Hnone & _).
  split; [reflexivity|]. split; [rewrite Hb; reflexivity|].
  split; [apply Hd; [done|exists 1; reflexivity]|].
  split; [reflexivity|].
  split; [apply Hnone; right; reflexivity|exact Harrow].
Defined.

(** X12.  Default construction changes neither heap nor trace and yields
    an empty handle, as does construction from a null raw pointer with
    either flag; destroying the new handle right away, also after a
    [reset()], restores the world. *)
Theorem X12_default_handle_is_empty (w : world) (h : nat) :
  handles w !! h = None →
  ctor_default h w
  = Some (tt, World (heap w) (<[h:=nullptr]> (handles w)) (trace w)) ∧
  (∀ b, ctor_raw h nullptr b w = ctor_default h w) ∧
  (ctor_default h;; to_bool h) w
  = Some (false, World (heap w) (<[h:=nullptr]> (handles w)) (trace w)) ∧
  (ctor_default h;; dtor h) w = Some (tt, w) ∧
  (ctor_default h;; reset h;; dtor h) w = Some (tt, w).
Proof.
  intros Hh.
  assert (ctor_default h w
          = Some (tt, set_handles (<[h:=nullptr]> (handles w)) w)) as Hd
    by (by apply ctor_default_run).
  assert (dtor h (set_handles (<[h:=nullptr]> (handles w)) w) = Some (tt, w))
    as Hdtor.
  { rewrite (dtor_run _ _ nullptr) by (cbn; by rewrite lookup_insert_eq).
    rewrite release_if_null. unfold set_handles. cbn.
    apply world_handles_id. by rewrite delete_insert_id. }
  split; [done|]. split; [|split; [|split]].
  - intros b. by rewrite ctor_raw_run, Hd.
  - rewrite bind_unfold, Hd. unfold to_bool.
    rewrite bind_unfold, (load_Some _ _ nullptr)
      by (cbn; by rewrite lookup_insert_eq). done.
  - by rewrite bind_unfold, Hd.
  - rewrite bind_unfold, Hd, bind_unfold.
    rewrite (reset_run _ _ nullptr) by (cbn; by rewrite lookup_insert_eq).
    rewrite release_if_null. unfold set_handles at 1 2. cbn [heap handles trace].
    rewrite insert_insert_eq. exact Hdtor.
Qed.

(** A default-constructed handle 0 beside an unowned pointee. *)
Lemma X12_witness :
  handles fresh_world !! 0%nat = None ∧
  (ctor_default 0;; dtor 0) fresh_world = Some (tt, fresh_world) ∧
  (ctor_default 0;; to_bool 0) fresh_world
  = Some (false, World {[ 1%N := 0 ]} {[ 0%nat := nullptr ]} []).
Proof.
  destruct (X12_default_handle_is_empty fresh_world 0 eq_refl)
    as (_ & _ & Hb & Hrt & _).
  split; [reflexivity|]. split; [exact Hrt|rewrite Hb; reflexivity].
Defined.

(** X13.  Detaching a non-empty handle and releasing the returned pointer
    by hand is [reset()]: the caller of [detach] owes exactly the one
    decrement the handle would have made.  Detaching an empty handle
    returns null and changes nothing. *)
Theorem X13_detach_then_release_is_reset (w : world) (h : nat) (p : N) :
  handles w !! h = Some p →
  (p ≠ nullptr →
   (q ← detach h; intrusive_ptr_release q) w = reset h w) ∧
  (p = nullptr → detach h w = Some (nullptr, w)) ∧
  (q ← detach h; when (negb (is_null q)) (intrusive_ptr_release q)) w
  = reset h w.
Proof.
  intros Hh.
  assert ((q ← detach h; release_if q) w = reset h w) as Hgen.
  { rewrite bind_unfold, (detach_run _ _ p), (reset_run _ _ p) by done. done. }
  split; [|split].
  - intros Hp. rewrite <- Hgen, !bind_unfold, (detach_run _ _ p) by done.
    by rewrite release_if_nonnull.
  - intros ->. rewrite (detach_run _ _ nullptr) by done.
    unfold set_handles. apply world_handles_id. by rewrite insert_id.
  - exact Hgen.
Qed.

(** The sole owner detaches and the caller releases. *)
Lemma X13_witness :
  (handles (sole_world 1) !! 0%nat = Some 1%N ∧ 1%N ≠ nullptr) ∧
  (q ← detach 0; intrusive_ptr_release q) (sole_world 1)
  = reset 0 (sole_world 1).
Proof.
  assert (1%N ≠ nullptr) as HP by done.
  destruct (X13_detach_then_release_is_reset (sole_world 1) 0 1 eq_refl)
    as (Hrel & _).
  split; [by split|by apply Hrel].
Defined.

(** X14.  Move construction followed by the destruction of the source
    renames the handle: heap and trace are unchanged and every pointee
    keeps its number of holders.  The moved-from source reads null, and
    moving back and destroying the new handle restores the world. *)
Theorem X14_move_is_a_rename (w : world) (h r : nat) (p : N) (P : N) :
  handles w !! r = Some p →
  handles w !! h = None →
  (ctor_move h r;; dtor r) w
  = Some (tt, World (heap w) (<[h:=p]> (delete r (handles w))) (trace w)) ∧
  (ctor_move_conv h r;; dtor r) w
  = Some (tt, World (heap w) (<[h:=p]> (delete r (handles w))) (trace w)) ∧
  holders P (<[h:=p]> (delete r (handles w))) = holders P (handles w) ∧
  (ctor_move h r;; assign_move r h;; dtor h) w = Some (tt, w) ∧
  (ctor_move h r;; get r) w
  = Some (nullptr,
          World (heap w) (<[r:=nullptr]> (<[h:=p]> (handles w))) (trace w)).
Proof.
  intros Hr Hh. assert (h ≠ r) as Hne by congruence.
  assert (ctor_move h r w
          = Some (tt, set_handles (<[r:=nullptr]> (<[h:=p]> (handles w))) w))
    as Hmove by (by apply ctor_move_run).
  assert (dtor r (set_handles (<[r:=nullptr]> (<[h:=p]> (handles w))) w)
          = Some (tt, World (heap w) (<[h:=p]> (delete r (handles w))) (trace w)))
    as Hdtor.
  { rewrite (dtor_run _ _ nullptr) by (cbn; by rewrite lookup_insert_eq).
    rewrite release_if_null. unfold set_handles. cbn.
    apply world_handles_ext. map_ext. }
  split; [by rewrite bind_unfold, Hmove|].
  split; [by rewrite bind_unfold, (ctor_move_conv_run _ _ _ p)|].
  split; [|split].
  - rewrite holders_insert, holders_delete, lookup_delete_ne, Hh, Hr by done.
    cbn. lia.
  - rewrite bind_unfold, Hmove, bind_unfold.
    destruct (decide (p = nullptr)) as [->|Hp].
    + rewrite (assign_move_same _ _ _ nullptr);
        [|cbn; by rewrite lookup_insert_ne, lookup_insert_eq
         |cbn; by rewrite lookup_insert_eq].
      rewrite (dtor_run _ _ nullptr)
        by (cbn; by rewrite lookup_insert_ne, lookup_insert_eq).
      rewrite release_if_null. unfold set_handles. cbn.
      apply world_handles_id. map_ext.
    + rewrite (assign_move_run _ _ _ p nullptr);
        [|cbn; by rewrite lookup_insert_ne, lookup_insert_eq
         |cbn; by rewrite lookup_insert_eq|done].
      rewrite release_if_null.
      rewrite (dtor_run _ _ nullptr)
        by (cbn; by rewrite lookup_insert_ne, lookup_insert_eq).
      rewrite release_if_null. unfold set_handles. cbn.
      apply world_handles_id. map_ext.
  - rewrite bind_unfold, Hmove. unfold get, load. cbn.
    by rewrite lookup_insert_eq.
Qed.

(** Handle 0 is moved into handle 1 and back. *)
Lemma X14_witness :
  (handles (sole_world 1) !! 0%nat = Some 1%N ∧
   handles (sole_world 1) !! 1%nat = None) ∧
  (ctor_move 1 0;; dtor 0) (sole_world 1)
  = Some (tt, World {[ 1%N := 1 ]} {[ 1%nat := 1%N ]} []) ∧
  (ctor_move 1 0;; assign_move 0 1;; dtor 1) (sole_world 1)
  = Some (tt, sole_world 1).
Proof.
  destruct (X14_move_is_a_rename (sole_world 1) 1 0 1 1 eq_refl eq_refl)
    as (Hmv & _ & _ & Hrt & _).
  split; [by split|]. split; [rewrite Hmv; reflexivity|exact Hrt].
Defined.

(** X15.  Whenever a copy assignment (same-type or converting) succeeds,
    the handle store is the old one with the target holding the source's
    pointer: target and source compare equal and the source still holds
    its pointer.  Whenever a raw-pointer assignment or [reset(p)],
    [reset(p, b)] succeeds, the target holds [p] and compares equal to
    it. *)
Theorem X15_assignment_postcondition
  (w w' : world) (this r : nat) (p q : N) :
  handles w !! r = Some p →
  (assign_copy this r w = Some (tt, w') ∨
   assign_copy_conv this r w = Some (tt, w') →
   handles w' = <[this:=p]> (handles w) ∧
   eq_hh this r w' = Some (true, w') ∧
   get r w' = Some (p, w')) ∧
  (assign_raw this q w = Some (tt, w') ∨
   reset_raw this q w = Some (tt, w') ∨
   (∃ b, reset_raw_flag this q b w = Some (tt, w')) →
   handles w' = <[this:=q]> (handles w) ∧
   eq_hp this q w' = Some (true, w') ∧
   get this w' = Some (q, w')).
Proof.
  intros Hr. split.
  - intros Hrun.
    assert (handles w' = <[this:=p]> (handles w)) as Hh.
    { destruct Hrun as [Hrun|Hrun].
      - change (exec (OpAssignCopy this r) w = Some (tt, w')) in Hrun.
        destruct (exec_shape_Some _ _ _ Hrun) as [[[[p' b] m] hs'] Hsh].
        rewrite (exec_handles _ _ _ _ _ _ _ Hrun Hsh).
        cbn [shape] in Hsh. rewrite Hr in Hsh.
        destruct (handles w !! this) as [m'|] eqn:Ht; [|done].
        case_decide; simplify_eq; [by rewrite insert_id|done].
      - change (exec (OpAssignCopyConv this r) w = Some (tt, w')) in Hrun.
        destruct (exec_shape_Some _ _ _ Hrun) as [[[[p' b] m] hs'] Hsh].
        rewrite (exec_handles _ _ _ _ _ _ _ Hrun Hsh).
        cbn [shape] in Hsh. rewrite Hr in Hsh.
        destruct (handles w !! this) as [m'|] eqn:Ht; by simplify_eq. }
    assert (handles w' !! this = Some p) as Hthis
      by (by rewrite Hh, lookup_insert_eq).
    assert (handles w' !! r = Some p) as Hr'.
    { rewrite Hh. destruct (decide (this = r)) as [->|Hne];
        [by rewrite lookup_insert_eq|by rewrite lookup_insert_ne]. }
    split; [done|]. unfold eq_hh, get.
    rewrite !bind_unfold, (load_Some _ _ _ Hthis).
    rewrite !bind_unfold, !(load_Some _ _ _ Hr').
    unfold ptr_eqb. by rewrite bool_decide_eq_true_2.
  - intros Hrun.
    assert (handles w' = <[this:=q]> (handles w)) as Hh.
    { assert (∃ b, reset_raw_flag this q b w = Some (tt, w')) as [b Hb].
      { destruct Hrun as [H|[H|H]]; [by exists true|by exists true|done]. }
      change (exec (OpResetRawFlag this q b) w = Some (tt, w')) in Hb.
      destruct (exec_shape_Some _ _ _ Hb) as [[[[p' b'] m] hs'] Hsh].
      rewrite (exec_handles _ _ _ _ _ _ _ Hb Hsh).
      cbn [shape] in Hsh.
      destruct (handles w !! this) as [m'|] eqn:Ht; by simplify_eq. }
    assert (handles w' !! this = Some q) as Hthis
      by (by rewrite Hh, lookup_insert_eq).
    split; [done|]. unfold eq_hp, get.
    rewrite !bind_unfold, !(load_Some _ _ _ Hthis).
    unfold ptr_eqb. by rewrite bool_decide_eq_true_2.
Qed.

(** Handle 0 is copy-assigned handle 1. *)
Lemma X15_witness :
  let w' := World {[ 2%N := 2 ]} {[ 0%nat := 2%N; 1%nat := 2%N ]}
              [EvAddRef 2; EvRelease 1; EvDelete 1] in
  (handles two_world !! 1%nat = Some 2%N ∧
   assign_copy 0 1 two_world = Some (tt, w')) ∧
  eq_hh 0 1 w' = Some (true, w') ∧
  get 1 w' = Some (2%N, w').
Proof.
  intros w'.
  destruct (X15_assignment_postcondition two_world w' 0 1 2 2 eq_refl)
    as (Hcopy & _).
  destruct (Hcopy (or_introl eq_refl)) as (_ & Heq & Hget).
  split; [by split|by split].
Defined.

Lemma add_ref_if_defined p b w :
  is_Some (add_ref_if p b w) ↔ p = nullptr ∨ b = false ∨ is_Some (heap w !! p).
Proof.
  unfold add_ref_if, when, is_null. destruct b; rewrite ?andb_false_r; cbn.
  2: { split; [auto|]. intros _. by eexists. }
  case_bool_decide as Hp; cbn.
  - split; [auto|]. intros _. by eexists.
  - unfold intrusive_ptr_add_ref. rewrite decide_False by done.
    destruct (heap w !! p) as [c|]; cbn.
    + split; [intros _; right; right; by eexists|intros _; by eexists].
    + split; [by intros [? ?]|]. intros [?|[?|[? ?]]]; done.
Qed.

Lemma release_if_defined_iff m w :
  is_Some (release_if m w) ↔ m = nullptr ∨ is_Some (heap w !! m).
Proof.
  split; [|apply release_if_defined].
  destruct (decide (m = nullptr)) as [->|Hm]; [auto|].
  rewrite release_if_nonnull by done. unfold intrusive_ptr_release.
  rewrite decide_False by done.
  destruct (heap w !! m); [intros _; right; by eexists|by intros [? ?]].
Qed.

Lemma add_ref_if_alive p b w w1 q :
  add_ref_if p b w = Some (tt, w1) →
  is_Some (heap w1 !! q) ↔ is_Some (heap w !! q).
Proof.
  unfold add_ref_if, when. destruct (negb (is_null p) && b).
  2: { by intros [= <-]. }
  unfold intrusive_ptr_add_ref. case_decide; [done|].
  destruct (heap w !! p) as [c|] eqn:Hc; [|done]. intros [= <-]. cbn.
  destruct (decide (p = q)) as [->|Hne].
  - rewrite lookup_insert_eq, Hc. split; intros _; by eexists.
  - by rewrite lookup_insert_ne.
Qed.

(** X16.  An operation is defined exactly when it is applied to handles
    that exist (and constructs one that does not), the pointer it
    increments is null or alive, and the pointer it decrements is null or
    alive. *)
Theorem X16_undefined_exactly_when (o : op) (w : world) :
  is_Some (exec o w) ↔
  ∃ p b m hs',
    shape o (handles w) = Some (p, b, m, hs') ∧
    (p = nullptr ∨ b = false ∨ is_Some (heap w !! p)) ∧
    (m = nullptr ∨ is_Some (heap w !! m)).
Proof.
  rewrite exec_hooks_of. unfold hooks_of.
  destruct (shape o (handles w)) as [[[[p b] m] hs']|] eqn:Hsh.
  2: { split; [by intros [? ?]|]. by intros (?&?&?&?&?&_). }
  rewrite bind_unfold.
  destruct (add_ref_if p b _) as [[[] w1]|] eqn:E1.
  - pose proof (proj1 (add_ref_if_defined p b _) (mk_is_Some _ _ E1)) as Hp.
    cbn [heap] in Hp.
    rewrite release_if_defined_iff, (add_ref_if_alive _ _ _ _ m E1).
    cbn [heap]. split.
    + intros Hm. by exists p, b, m, hs'.
    + by intros (?&?&?&?&[= <- <- <- <-]&_&?).
  - split; [by intros [? ?]|].
    intros (?&?&?&?&[= <- <- <- <-]&Hp&_).
    apply (add_ref_if_defined p b (World (heap w) hs' (trace w))) in Hp.
    rewrite E1 in Hp. by destruct Hp.
Qed.

Lemma counting_owned P o w :
  counting o = true → adopts P o = 0%nat ∧ yields P o w = 0%nat.
Proof. destruct o; try done; destruct add_ref; done. Qed.

Lemma sound_step o w w' :
  sound w → counting o = true →
  exec o w = Some (tt, w') →
  (∀ P, holders P (handles w') < UINT_MODULUS) →
  sound w'.
Proof.
  intros Hs Hcount Hrun Hbound P HP. specialize (Hs P HP).
  destruct (counting_owned P o w Hcount) as [Had Hy].
  destruct (heap w !! P) as [c|] eqn:Hc.
  - assert (exec_owned P o (w, 0%nat) = Some (w', 0%nat)) as Hstep.
    { unfold exec_owned. rewrite Had, Hy, Hrun. cbn.
      rewrite decide_True by lia. rewrite decide_True; [done|].
      unfold owners. specialize (Hbound P). lia. }
    destruct (exec_owned_step P o w 0 w' 0 HP Hs Hstep) as (_ & Hacc & _).
    destruct (heap w' !! P) eqn:Hc'; [done|].
    destruct Hacc as (_ & _ & Hcnt). rewrite Hc' in Hcnt.
    unfold owners in Hcnt. lia.
  - destruct (exec_shape P o w w' 0 HP Hrun ltac:(lia))
      as (p & b & m & hs' & Hsh & Hm & Hown).
    rewrite Had, Hy in Hown. rewrite Hsh in Hrun.
    assert (handles w' = hs') as Hh.
    { apply hook_only_handles in Hrun; [done|auto with hooks]. }
    rewrite bind_unfold in Hrun.
    destruct (add_ref_if p b _) as [[[] w1]|] eqn:E1; [|done].
    apply (add_ref_if_ledger P) in E1 as (_ & _ & _ & _ & Hc1); [|done].
    pose proof (release_if_ledger P _ _ _ HP Hrun) as (_ & _ & _ & Hc2).
    cbn [heap trace handles set_handles] in *.
    assert (m ≠ P) as Hne by (intros ->; specialize (Hm eq_refl); lia).
    rewrite decide_False in Hc2 by done. destruct Hc2 as [Hc2 _].
    destruct (decide (p = P ∧ b = true)) as [[-> ->]|Hpb].
    + destruct Hc1 as (c & Hc0 & _). congruence.
    + rewrite Hc2, Hc1, Hc, Hh.
      assert ((if b then ind P p else 0) = 0) as Hz.
      { destruct b; [|done]. unfold ind. rewrite decide_False; [done|tauto]. }
      rewrite Hz in Hown. unfold ind in Hown.
      rewrite (decide_False (P:=m = P)) in Hown by done. lia.
Qed.

Lemma sound_alive w h p :
  sound w → handles w !! h = Some p → p ≠ nullptr →
  ∃ c, heap w !! p = Some c ∧ c = holders p (handles w) ∧ 1 ≤ c.
Proof.
  intros Hs Hh Hp. specialize (Hs p Hp).
  pose proof (holders_lookup _ _ _ Hh) as Hge.
  destruct (heap w !! p) as [c|] eqn:Hc; [|lia].
  destruct Hs as (_ & _ & Hcnt). rewrite Hc in Hcnt. destruct Hcnt as [-> _].
  exists (owners p w 0). split; [done|]. unfold owners. lia.
Qed.

Lemma holders_le_size P (hs : gmap nat N) : holders P hs ≤ Z.of_nat (size hs).
Proof.
  unfold holders. apply inj_le, map_subseteq_size, map_filter_subseteq.
Qed.

Lemma sound_fresh_world : sound fresh_world.
Proof.
  intros P HP. unfold fresh_world. cbn [heap handles].
  destruct (decide (P = 1%N)) as [->|Hne].
  - rewrite lookup_singleton_eq. unfold account, ledger. vm_compute.
    intuition discriminate.
  - rewrite lookup_singleton_ne by done. reflexivity.
Qed.

(** X17.  Call a world sound when every live pointee's counter is the
    number of handles holding it (with balanced hook calls) and no handle
    holds a pointee that is gone.  Every operation that takes its
    increments (no construction with [add_ref = false], no [detach])
    keeps a world sound as long as fewer than 2^32 handles hold one
    pointee: afterwards every non-empty handle's pointee is alive with
    [use_count()] equal to the number of its holders, and a pointee that
    the operation deleted had holders before and has none after. *)
Theorem X17_counting_operations_never_leave_a_dangling_handle
  (o : op) (w w' : world) :
  sound w →
  counting o = true →
  exec o w = Some (tt, w') →
  (∀ P, holders P (handles w') < UINT_MODULUS) →
  sound w' ∧
  (∀ h p, handles w' !! h = Some p → p ≠ nullptr →
          ∃ c, use_count p w' = Some (c, w') ∧
               c = holders p (handles w') ∧ 1 ≤ c) ∧
  (∀ P c, P ≠ nullptr → heap w !! P = Some c → heap w' !! P = None →
          holders P (handles w') = 0 ∧ 0 < holders P (handles w)).
Proof.
  intros Hs Hcount Hrun Hbound.
  pose proof (sound_step _ _ _ Hs Hcount Hrun Hbound) as Hs'.
  split; [done|]. split.
  - intros h p Hh Hp.
    destruct (sound_alive _ _ _ Hs' Hh Hp) as (c & Hc & Heq & Hge).
    exists c. unfold use_count. by rewrite Hc.
  - intros P c HP Hc Hc'.
    pose proof (Hs' P HP) as HsP'. rewrite Hc' in HsP'.
    split; [done|].
    pose proof (Hs P HP) as HsP. rewrite Hc in HsP.
    destruct (counting_owned P o w Hcount) as [Had Hy].
    assert (exec_owned P o (w, 0%nat) = Some (w', 0%nat)) as Hstep.
    { unfold exec_owned. rewrite Had, Hy, Hrun. cbn.
      rewrite decide_True by lia. rewrite decide_True; [done|].
      unfold owners. specialize (Hbound P). lia. }
    destruct (exec_owned_step P o w 0 w' 0 HP HsP Hstep) as (_ & Hacc & Hdel).
    destruct HsP as (_ & _ & Hcnt). rewrite Hc in Hcnt.
    destruct Hacc as (_ & _ & Hcnt'). rewrite Hc' in Hcnt'.
    destruct Hcnt as [_ Hd0]. destruct Hcnt' as [_ Hd1].
    rewrite Hd0, Hd1 in Hdel. unfold owners in Hdel.
    case_decide; lia.
Qed.

(** A new pointee is wrapped in its first handle. *)
Lemma X17_witness :
  let w' := World {[ 1%N := 1 ]} {[ 0%nat := 1%N ]} [EvAddRef 1] in
  (sound fresh_world ∧ counting (OpCtorRaw 0 1 true) = true ∧
   exec (OpCtorRaw 0 1 true) fresh_world = Some (tt, w')) ∧
  sound w' ∧
  ∃ c, use_count 1 w' = Some (c, w') ∧ c = holders 1 (handles w') ∧ 1 ≤ c.
Proof.
  intros w'.
  assert (∀ P, holders P (handles w') < UINT_MODULUS) as Hbound.
  { intros P. pose proof (holders_le_size P (handles w')) as Hle.
    change (Z.of_nat (size (handles w'))) with 1 in Hle.
    unfold UINT_MODULUS. lia. }
  assert (1%N ≠ nullptr) as HP by done.
  destruct (X17_counting_operations_never_leave_a_dangling_handle
              (OpCtorRaw 0 1 true) fresh_world w'
              sound_fresh_world eq_refl eq_refl Hbound) as (Hs & Halive & _).
  split; [split; [exact sound_fresh_world|by split]|].
  split; [exact Hs|]. by apply (Halive 0%nat 1%N).
Defined.

